(** * A carousel widget: DOM geometry readers, the animation controller and
      the slider built on them.

    The development follows the two JavaScript sources of the repository:
    - [dist/js/dom.js]: [getScroll], [getOffset], [getClient];
    - the slider script: [Slider], [AnimationController] and its static
      [animate] with the closures [endAnimation] and [tick].

    JavaScript numbers are IEEE 754 binary64 values.  The arithmetic the
    program performs is kept behind the interface [Number], with two
    instances: [binary64], the doubles of the language (Rocq's primitive
    floats), and [exact], rational arithmetic without rounding.  Every
    function of the program is written once, over the interface.

    The program is event driven: a click handler, a timeout or a frame
    callback runs to its end before the next one starts.  The state of the
    host's timers and of the closures the program has created is passed
    explicitly, and [Date.now()] is an input of each step. *)

From Stdlib Require Import ZArith QArith Lqa Floats Uint63 Bool String.
From stdpp Require Import base option list gmap.

Close Scope Q_scope.
Close Scope float_scope.

(** ** Numbers *)

Class Number := {
  num : Type;
  n_add : num → num → num;
  n_sub : num → num → num;
  n_mul : num → num → num;
  n_div : num → num → num;
  (** [x < y], [x <= y] and [x == y] on numbers. *)
  n_lt : num → num → bool;
  n_le : num → num → bool;
  n_eq : num → num → bool;
  isNaN : num → bool;
  (** An integer literal of the source ([0], [1], [-2], [1000], ...). *)
  lit : Z → num;
  (** The literal [0.5]. *)
  half : num;
  (** [Math.pow(b, n)] at a literal exponent [n] that is a natural number. *)
  Math_pow : num → nat → num;
  isNaN_zero : isNaN (lit 0) = false;
  one_eq_one : n_eq (lit 1) (lit 1) = true
}.

Arguments lit {_} _%_Z.

Declare Scope js_scope.
Delimit Scope js_scope with js.
Infix "+" := n_add : js_scope.
Infix "-" := n_sub : js_scope.
Infix "*" := n_mul : js_scope.
Infix "/" := n_div : js_scope.
Infix "<?" := n_lt : js_scope.
Infix "<=?" := n_le : js_scope.
Infix "==?" := n_eq (at level 70) : js_scope.
(** [x >= y] is evaluated as [y <= x]; both are false when an operand is NaN. *)
Notation "x >=? y" := (n_le y x) (at level 70) : js_scope.

(** *** Doubles *)

Definition float_of_Z (z : Z) : float :=
  match z with
  | Z0 => PrimFloat.zero
  | Zpos p => PrimFloat.of_uint63 (Uint63.of_Z (Zpos p))
  | Zneg p => PrimFloat.opp (PrimFloat.of_uint63 (Uint63.of_Z (Zpos p)))
  end.

(** A stand-in for the host's [Math.pow] at a natural exponent: the
    repeated product.  The host's function is implementation-approximated
    and can differ from it in the last place; the two agree at the bases
    [0] and [1].  What is stated of [easeInOutCubic] over doubles is stated
    for every [Math.pow] ([binary64_with]); the concrete runs below use the
    stand-in. *)
Fixpoint float_pow (b : float) (n : nat) : float :=
  match n with
  | O => PrimFloat.one
  | S O => b
  | S m => PrimFloat.mul (float_pow b m) b
  end.

Definition binary64 : Number := {|
  num := float;
  n_add := PrimFloat.add;
  n_sub := PrimFloat.sub;
  n_mul := PrimFloat.mul;
  n_div := PrimFloat.div;
  n_lt := PrimFloat.ltb;
  n_le := PrimFloat.leb;
  n_eq := PrimFloat.eqb;
  isNaN := PrimFloat.is_nan;
  lit := float_of_Z;
  half := 0.5%float;
  Math_pow := float_pow;
  isNaN_zero := eq_refl;
  one_eq_one := eq_refl
|}.

(** *** Exact rational arithmetic *)

Definition exact : Number := {|
  num := Q;
  n_add := Qplus;
  n_sub := Qminus;
  n_mul := Qmult;
  n_div := Qdiv;
  n_lt := fun x y => negb (Qle_bool y x);
  n_le := Qle_bool;
  n_eq := Qeq_bool;
  isNaN := fun _ => false;
  lit := inject_Z;
  half := (1 # 2)%Q;
  Math_pow := fun b n => Qpower b (Z.of_nat n);
  isNaN_zero := eq_refl;
  one_eq_one := eq_refl
|}.

(** *** Doubles, with the host's [Math.pow] as a parameter *)





(** ** Completions: a call returns or throws *)

Inductive error :=
| TypeError
| Error (message : string).

Inductive completion (A : Type) :=
| Normal (a : A)
| Throw (e : error).

Arguments Normal {A} a.
Arguments Throw {A} e.

#[export] Instance completion_ret : MRet completion := fun A a => Normal a.

#[export] Instance completion_bind : MBind completion := fun A B k c =>
  match c with
  | Normal a => k a
  | Throw e => Throw e
  end.

(** ** dom.js: geometry readers *)

Module Dom.
Section Readers.
Context {N : Number}.

(** What reading a geometry property of an object yields.  The properties
    of an element are numbers; [undefined] is what an object without the
    property gives. *)
Inductive value :=
| undefined
| number (x : num).

(** ToBoolean: [undefined], [NaN], [0] and [-0] are falsy. *)
Definition truthy (v : value) : bool :=
  match v with
  | undefined => false
  | number x => negb (isNaN x || (x ==? lit 0)%js)
  end.

(** [v || 0] *)
Definition or_zero (v : value) : num :=
  match v with
  | number x => if truthy v then x else lit 0
  | undefined => lit 0
  end.

Record HTMLElement := {
  scrollTop : value; scrollLeft : value; scrollHeight : value; scrollWidth : value;
  offsetTop : value; offsetLeft : value; offsetHeight : value; offsetWidth : value;
  clientTop : value; clientLeft : value; clientHeight : value; clientWidth : value
}.

(** The globals [getScroll] reads when it is given no element:
    [window.pageYOffset], [window.pageXOffset], [document.documentElement]
    and [document.body] (each of the two may be [null]). *)
Record Globals := {
  pageYOffset : value;
  pageXOffset : value;
  documentElement : option HTMLElement;
  body : option HTMLElement
}.

Record Box := { top : num; left : num; height : num; width : num }.

(** [document.documentElement.p || document.body.p || 0]: the body is
    read only when the first operand is falsy, and reading a property of
    [null] throws. *)
Definition document_or_zero (g : Globals) (p : HTMLElement → value) : completion num :=
  match documentElement g with
  | None => Throw TypeError
  | Some root =>
      if truthy (p root) then Normal (or_zero (p root))
      else match body g with
           | None => Throw TypeError
           | Some b => Normal (or_zero (p b))
           end
  end.

(** [w || document.documentElement.p || document.body.p || 0] *)
Definition window_or_zero (g : Globals) (w : value) (p : HTMLElement → value) : completion num :=
  if truthy w then Normal (or_zero w) else document_or_zero g p.

Definition getScroll (g : Globals) (el : option HTMLElement) : completion Box :=
  match el with
  | Some el =>
      Normal {| top := or_zero (scrollTop el);
                left := or_zero (scrollLeft el);
                height := or_zero (scrollHeight el);
                width := or_zero (scrollWidth el) |}
  | None =>
      t ← window_or_zero g (pageYOffset g) scrollTop;
      l ← window_or_zero g (pageXOffset g) scrollLeft;
      h ← document_or_zero g scrollHeight;
      w ← document_or_zero g scrollWidth;
      Normal {| top := t; left := l; height := h; width := w |}
  end.

Definition getOffset (el : HTMLElement) : Box :=
  {| top := or_zero (offsetTop el);
     left := or_zero (offsetLeft el);
     height := or_zero (offsetHeight el);
     width := or_zero (offsetWidth el) |}.

Definition getClient (el : HTMLElement) : Box :=
  {| top := or_zero (clientTop el);
     left := or_zero (clientLeft el);
     height := or_zero (clientHeight el);
     width := or_zero (clientWidth el) |}.

(** A field read through [|| 0] is the property when it is truthy and [0]
    otherwise; it is never NaN. *)
Definition coerced (v : value) (x : num) : Prop :=
  isNaN x = false ∧
  (truthy v = true → v = number x) ∧
  (truthy v = false → x = lit 0).

(** The four fields of a box, each read through [|| 0]. *)
Definition coerced_box (t l h w : value) (b : Box) : Prop :=
  coerced t (top b) ∧ coerced l (left b) ∧ coerced h (height b) ∧ coerced w (width b).

(** [v1 || v2 || ... || 0]: the first truthy value, or [0]. *)
Fixpoint first_truthy (vs : list value) : num :=
  match vs with
  | [] => lit 0
  | v :: vs => if truthy v then or_zero v else first_truthy vs
  end.

(** A property of [document.body], [undefined] when there is no body. *)
Definition body_property (g : Globals) (p : HTMLElement → value) : value :=
  match body g with
  | Some b => p b
  | None => undefined
  end.

(** Whether [getScroll()], given the root element, goes on to read a
    property of [document.body]. *)
Definition reads_body (g : Globals) (root : HTMLElement) : bool :=
  negb (truthy (pageYOffset g)) && negb (truthy (scrollTop root)) ||
  negb (truthy (pageXOffset g)) && negb (truthy (scrollLeft root)) ||
  negb (truthy (scrollHeight root)) ||
  negb (truthy (scrollWidth root)).

(** The scroll values of the page, read from the window first, then from
    the root element, then from the body. *)
Definition page_box (g : Globals) (root : HTMLElement) : Box :=
  {| top := first_truthy [pageYOffset g; scrollTop root; body_property g scrollTop];
     left := first_truthy [pageXOffset g; scrollLeft root; body_property g scrollLeft];
     height := first_truthy [scrollHeight root; body_property g scrollHeight];
     width := first_truthy [scrollWidth root; body_property g scrollWidth] |}.

End Readers.
End Dom.

(** ** dom.js: [position] *)

Module Rect.
Section Rect.
Context {N : Number}.

(** What [getBoundingClientRect()] returns; [position] returns an object
    with the same six fields. *)
Record DOMRect := {
  width : num; height : num;
  top : num; left : num; bottom : num; right : num
}.

(** [position(el, relativeTo)].  An element is given by the rectangle its
    [getBoundingClientRect()] returns; [body] is that of [document.body],
    [None] when the document has no body, and [relativeTo] is [None] when
    the argument is missing or null. *)
Definition position (body : option DOMRect) (el : DOMRect)
    (relativeTo : option DOMRect) : completion DOMRect :=
  let relativeTo :=
    match relativeTo with
    | Some r => Some r
    | None => body
    end in
  let rect := el in
  match relativeTo with
  | None => Throw TypeError
  | Some relRect =>
      Normal {| width := width rect;
                height := height rect;
                top := (top rect - top relRect)%js;
                left := (left rect - left relRect)%js;
                bottom := (bottom relRect - bottom rect)%js;
                right := (right relRect - right rect)%js |}
  end.

End Rect.
End Rect.

(** ** The static [AnimationController.animate]: one timer-driven loop *)

Module Loop.
Section Loop.
Context {N : Number} {World : Type}.

(** One call of the static [animate]: its parameters and the variables
    that its closures [endAnimation] and [tick] share.  A callback is taken
    to return normally and to act on the rest of the program's state,
    [World], only.  A callback that throws, or that calls the function
    [animate] returned, is not covered: the source sets [flushed] only
    after [setCallabck(1)] has returned, so such a callback can get that
    call again. *)
Record Animation := {
  setCallabck : num → World → World;
  easeFunction : num → num;
  duration : num;
  begin : num;
  end_ : num;
  timeoutMarker : nat;
  (** [undefined] until a tick has requested the next frame. *)
  tickMarker : option nat;
  flushed : bool
}.

(** An invocation of [setCallabck]: by which animation, from
    [endAnimation] ([final]) or from [tick], and with which fraction. *)
Record Call := { call_of : nat; final : bool; percent : num }.

(** The host's timers and the closures created so far.  A closure is named
    by the position of its animation in [animations]; a pending timer maps
    its handle to the animation whose [endAnimation] ([timeouts]) or [tick]
    ([frames]) it will run.  No other code of the page sets timers. *)
Record Host := {
  animations : list Animation;
  timeouts : gmap nat nat;
  frames : gmap nat nat;
  next_timeout : nat;
  next_frame : nat;
  world : World;
  (** Every invocation of a callback so far, newest first. *)
  calls : list Call
}.

Definition empty (w : World) : Host :=
  {| animations := []; timeouts := ∅; frames := ∅;
     next_timeout := 0; next_frame := 0; world := w; calls := [] |}.

Definition with_animations (f : list Animation → list Animation) (h : Host) : Host :=
  {| animations := f (animations h); timeouts := timeouts h; frames := frames h;
     next_timeout := next_timeout h; next_frame := next_frame h;
     world := world h; calls := calls h |}.

Definition with_timeouts (f : gmap nat nat → gmap nat nat) (h : Host) : Host :=
  {| animations := animations h; timeouts := f (timeouts h); frames := frames h;
     next_timeout := next_timeout h; next_frame := next_frame h;
     world := world h; calls := calls h |}.

Definition with_frames (f : gmap nat nat → gmap nat nat) (h : Host) : Host :=
  {| animations := animations h; timeouts := timeouts h; frames := f (frames h);
     next_timeout := next_timeout h; next_frame := next_frame h;
     world := world h; calls := calls h |}.

Definition with_world (f : World → World) (h : Host) : Host :=
  {| animations := animations h; timeouts := timeouts h; frames := frames h;
     next_timeout := next_timeout h; next_frame := next_frame h;
     world := f (world h); calls := calls h |}.

Definition set_flushed (a : Animation) : Animation :=
  {| setCallabck := setCallabck a; easeFunction := easeFunction a;
     duration := duration a; begin := begin a; end_ := end_ a;
     timeoutMarker := timeoutMarker a; tickMarker := tickMarker a;
     flushed := true |}.

Definition set_tickMarker (k : nat) (a : Animation) : Animation :=
  {| setCallabck := setCallabck a; easeFunction := easeFunction a;
     duration := duration a; begin := begin a; end_ := end_ a;
     timeoutMarker := timeoutMarker a; tickMarker := Some k;
     flushed := flushed a |}.

(** [setTimeout(endAnimation, _)] and [requestAnimationFrame(tick)], for the
    closures of animation [id]: the callback is queued under a fresh handle,
    which is returned. *)
Definition setTimeout (id : nat) (h : Host) : nat * Host :=
  (next_timeout h,
   {| animations := animations h; timeouts := <[next_timeout h := id]> (timeouts h);
      frames := frames h; next_timeout := S (next_timeout h);
      next_frame := next_frame h; world := world h; calls := calls h |}).

Definition requestAnimationFrame (id : nat) (h : Host) : nat * Host :=
  (next_frame h,
   {| animations := animations h; timeouts := timeouts h;
      frames := <[next_frame h := id]> (frames h); next_timeout := next_timeout h;
      next_frame := S (next_frame h); world := world h; calls := calls h |}).

Definition clearTimeout (k : nat) : Host → Host := with_timeouts (delete k).

(** [cancelAnimationFrame(undefined)] cancels nothing. *)
Definition cancelAnimationFrame (k : option nat) : Host → Host :=
  match k with
  | Some k => with_frames (delete k)
  | None => fun h => h
  end.

(** [setCallabck(p)], called by animation [id]. *)
Definition invoke (id : nat) (fin : bool) (a : Animation) (p : num) (h : Host) : Host :=
  {| animations := animations h; timeouts := timeouts h; frames := frames h;
     next_timeout := next_timeout h; next_frame := next_frame h;
     world := setCallabck a p (world h);
     calls := {| call_of := id; final := fin; percent := p |} :: calls h |}.

Definition endAnimation (id : nat) (h : Host) : Host :=
  match animations h !! id with
  | None => h
  | Some a =>
      let h := clearTimeout (timeoutMarker a) h in
      let h := cancelAnimationFrame (tickMarker a) h in
      if flushed a then h
      else
        let h := invoke id true a (lit 1) h in
        with_animations (alter set_flushed id) h
  end.

Definition tick (id : nat) (now : num) (h : Host) : Host :=
  match animations h !! id with
  | None => h
  | Some a =>
      if (now >=? end_ a)%js then endAnimation id h
      else if flushed a then h
      else
        let h := invoke id false a (easeFunction a ((now - begin a) / duration a)%js) h in
        let '(k, h) := requestAnimationFrame id h in
        with_animations (alter (set_tickMarker k) id) h
  end.

(** The static [animate], called when [Date.now()] is [now].  The result is
    the returned [endAnimation], named by its animation.  The handle of the
    first frame request is not kept. *)
Definition animate (setCallabck : num → World → World) (easeFunction : num → num)
    (duration : num) (now : num) (h : Host) : nat * Host :=
  let begin := now in
  let end_ := (begin + duration)%js in
  let id := length (animations h) in
  let '(timeoutMarker, h) := setTimeout id h in
  let a := {| setCallabck := setCallabck; easeFunction := easeFunction;
              duration := duration; begin := begin; end_ := end_;
              timeoutMarker := timeoutMarker; tickMarker := None;
              flushed := false |} in
  let h := with_animations (fun l => l ++ [a]) h in
  let '(_, h) := requestAnimationFrame id h in
  (id, h).

(** What the host does on its own: it runs a pending timeout, or a pending
    frame callback while [Date.now()] is [now].  A handle that is not
    pending runs nothing. *)
Inductive task :=
| Timeout (k : nat)
| Frame (k : nat) (now : num).

Definition fire (t : task) (h : Host) : Host :=
  match t with
  | Timeout k =>
      match timeouts h !! k with
      | Some id => endAnimation id (with_timeouts (delete k) h)
      | None => h
      end
  | Frame k now =>
      match frames h !! k with
      | Some id => tick id now (with_frames (delete k) h)
      | None => h
      end
  end.

Definition is_flushed (id : nat) (h : Host) : bool :=
  match animations h !! id with
  | Some a => flushed a
  | None => false
  end.

(** An animation is in flight from its creation until it is flushed. *)
Definition in_flight (id : nat) (h : Host) : Prop :=
  ∃ a, animations h !! id = Some a ∧ flushed a = false.

Definition calls_of (id : nat) (h : Host) : list Call :=
  filter (fun c => call_of c = id) (calls h).

(** Calls that all came from ticks. *)
Definition quiet (cs : list Call) : Prop := Forall (fun c => final c = false) cs.

(** Calls that end with the one final call, of fraction [1]. *)
Definition closed (id : nat) (cs : list Call) : Prop :=
  ∃ older, cs = {| call_of := id; final := true; percent := lit 1 |} :: older ∧ quiet older.

(** Among the calls of an animation the final one comes at most once, with
    fraction [1], and no call comes after it. *)
Definition final_once (id : nat) (h : Host) : Prop :=
  ∀ newer c older, calls_of id h = newer ++ c :: older → final c = true →
    newer = [] ∧ percent c = lit 1 ∧ quiet older.

(** Uses of the loop: a call of [animate], the host running a timer, a call
    of a returned [endAnimation], and anything else the program does to its
    state in between. *)
Inductive op :=
| Begin (setCallabck : num → World → World) (easeFunction : num → num)
    (duration : num) (now : num)
| Host_runs (t : task)
| Cancel (id : nat)
| Elsewhere (f : World → World).

Definition apply (h : Host) (o : op) : Host :=
  match o with
  | Begin setCallabck easeFunction duration now =>
      (animate setCallabck easeFunction duration now h).2
  | Host_runs t => fire t h
  | Cancel id => endAnimation id h
  | Elsewhere f => with_world f h
  end.

Definition exec (h : Host) (os : list op) : Host := foldl apply h os.

(** What holds of the timers and the call log however the loop is used.
    Only [animate] sets timeouts, so the fallback timeout of the animation
    named [id] has the handle [id]. *)
Record consistent (h : Host) : Prop := {
  timeouts_allocated : next_timeout h = length (animations h);
  marker_is_own : ∀ id a, animations h !! id = Some a → timeoutMarker a = id;
  timeout_owner :
    ∀ k id, timeouts h !! k = Some id → k = id ∧ is_Some (animations h !! id);
  fallback_pending :
    ∀ id a, animations h !! id = Some a → flushed a = false → timeouts h !! id = Some id;
  calls_shape :
    ∀ id, match animations h !! id with
          | Some a => if flushed a then closed id (calls_of id h) else quiet (calls_of id h)
          | None => calls_of id h = []
          end
}.

(** What holds of the frame requests however the loop is used: an
    animation has at most one frame request pending, the one in
    [tickMarker] when that is set; it has one while it is in flight; and
    once it has finished its timeout is cleared and the request in
    [tickMarker] cancelled. *)
Record tidy (h : Host) : Prop := {
  frame_fresh :
    ∀ k id, frames h !! k = Some id → k < next_frame h ∧ is_Some (animations h !! id);
  marker_fresh :
    ∀ id a m, animations h !! id = Some a → tickMarker a = Some m →
      m < next_frame h ∧ ∀ id', frames h !! m = Some id' → id' = id;
  frame_unique :
    ∀ id k k', frames h !! k = Some id → frames h !! k' = Some id → k = k';
  marker_frame :
    ∀ id a m k, animations h !! id = Some a → tickMarker a = Some m →
      frames h !! k = Some id → k = m;
  frame_pending :
    ∀ id a, animations h !! id = Some a → flushed a = false →
      ∃ k, frames h !! k = Some id;
  timeout_cleared :
    ∀ id a, animations h !! id = Some a → flushed a = true → timeouts h !! id = None;
  marker_cancelled :
    ∀ id a m, animations h !! id = Some a → flushed a = true →
      tickMarker a = Some m → frames h !! m = None
}.

(** What one step can do to the calls of the animation [id]: nothing; or
    finish it, with the one call [endAnimation] makes, of fraction [1]; or,
    while it has not finished, one call from a tick. *)
Definition moves (id : nat) (h h' : Host) : Prop :=
  (calls_of id h' = calls_of id h ∧ is_flushed id h' = is_flushed id h) ∨
  (is_flushed id h = false ∧ is_flushed id h' = true ∧
   calls_of id h' =
     {| call_of := id; final := true; percent := lit 1 |} :: calls_of id h) ∨
  (is_flushed id h = false ∧ is_flushed id h' = false ∧
   ∃ p, calls_of id h' =
          {| call_of := id; final := false; percent := p |} :: calls_of id h).

(** The timers of one animation, as a user of the loop sees them. *)
Definition timers_of (id : nat) (h : Host) : Prop :=
  match animations h !! id with
  | Some a =>
      (∀ k k', frames h !! k = Some id → frames h !! k' = Some id → k = k') ∧
      if flushed a
      then (∀ k, timeouts h !! k = Some id → False) ∧
           (∀ k, frames h !! k = Some id → tickMarker a = None)
      else timeouts h !! id = Some id ∧ ∃ k, frames h !! k = Some id
  | None =>
      (∀ k, timeouts h !! k = Some id → False) ∧
      (∀ k, frames h !! k = Some id → False)
  end.

End Loop.
End Loop.

Arguments Loop.Animation {_} World.
Arguments Loop.Host {_} World.
Arguments Loop.Call {_}.
Arguments Loop.task {_}.
Arguments Loop.op {_} World.

(** ** [AnimationController] *)

Module Controller.
Section Controller.
Context {N : Number} {W : Type}.

Record AnimationController := {
  cancel : option nat;
  easeFunction : num → num;
  animatingTo : option num
}.

(** What the callbacks of the controller act on: the controller's own
    fields, and whatever its [setFunction]s change ([page]).  [sets] lists
    every invocation of a [setFunction], newest first, with the animation it
    belongs to and the value passed. *)
Record Env := {
  controller : AnimationController;
  page : W;
  sets : list (nat * num)
}.

Definition create (easeFunction : num → num) : AnimationController :=
  {| cancel := None; easeFunction := easeFunction; animatingTo := None |}.

Definition isAnimating (c : AnimationController) : bool :=
  match animatingTo c with
  | Some _ => true
  | None => false
  end.

Definition with_controller (f : AnimationController → AnimationController) (e : Env) : Env :=
  {| controller := f (controller e); page := page e; sets := sets e |}.

Definition set_animatingTo (v : option num) (c : AnimationController) : AnimationController :=
  {| cancel := cancel c; easeFunction := easeFunction c; animatingTo := v |}.

Definition set_cancel (v : option nat) (c : AnimationController) : AnimationController :=
  {| cancel := v; easeFunction := easeFunction c; animatingTo := animatingTo c |}.

(** The value [animate] interpolates: [from + (to - from) * percent]. *)
Definition interpolate (from to percent : num) : num :=
  (from + (to - from) * percent)%js.

(** The arrow function [animate] passes to the loop, for the animation that
    will be named [id]. *)
Definition arrow (id : nat) (setFunction : num → W → W) (from to : num)
    (percent : num) (e : Env) : Env :=
  let e :=
    if (percent ==? lit 1)%js
    then with_controller (fun c => set_cancel None (set_animatingTo None c)) e
    else e in
  let value := interpolate from to percent in
  {| controller := controller e;
     page := setFunction value (page e);
     sets := (id, value) :: sets e |}.

(** The cubic ease-in-out. *)
Definition easeInOutCubic (x : num) : num :=
  (if x <? half
   then lit 4 * x * x * x
   else lit 1 - Math_pow (lit (-2) * x + lit 2) 3 / lit 2)%js.

(** [if (this.cancel) this.cancel();] *)
Definition settle (h : Loop.Host Env) : Loop.Host Env :=
  match cancel (controller (Loop.world h)) with
  | Some old => Loop.endAnimation old h
  | None => h
  end.

(** The rest of [animate]: the target is recorded, the loop is started with
    the arrow function, and the function it returns is kept in [cancel] and
    returned. *)
Definition start (setFunction : num → W → W) (from to duration : num) (now : num)
    (h : Loop.Host Env) : nat * Loop.Host Env :=
  let h := Loop.with_world (with_controller (set_animatingTo (Some to))) h in
  let '(id, h) :=
    Loop.animate (arrow (length (Loop.animations h)) setFunction from to)
      (easeFunction (controller (Loop.world h))) duration now h in
  (id, Loop.with_world (with_controller (set_cancel (Some id))) h).

Definition animate (setFunction : num → W → W) (from to duration : num) (now : num)
    (h : Loop.Host Env) : nat * Loop.Host Env :=
  start setFunction from to duration now (settle h).

(** A page with one controller, before any call. *)
Definition initial (easeFunction : num → num) (w : W) : Loop.Host Env :=
  Loop.empty {| controller := create easeFunction; page := w; sets := [] |}.

(** What can happen to the controller: a call of [animate], a timer of the
    host firing, or a call of a function that an earlier [animate]
    returned. *)
Inductive event :=
| Animate (setFunction : num → W → W) (from to duration : num) (now : num)
| Fire (t : Loop.task)
| Finalize (id : nat).

Definition step (h : Loop.Host Env) (e : event) : Loop.Host Env :=
  match e with
  | Animate setFunction from to duration now =>
      (animate setFunction from to duration now h).2
  | Fire t => Loop.fire t h
  | Finalize id => Loop.endAnimation id h
  end.

Definition run (h : Loop.Host Env) (es : list event) : Loop.Host Env :=
  foldl step h es.

(** The value of the latest [setFunction] invocation of animation [id]. *)
Definition last_set (id : nat) (h : Loop.Host Env) : option num :=
  snd <$> head (filter (fun s => s.1 = id) (sets (Loop.world h))).

(** The controller's two fields are set and cleared together. *)
Definition coupled (c : AnimationController) : Prop :=
  animatingTo c = None ↔ cancel c = None.

(** Every callback the loop holds is an arrow function of [animate], made
    for the animation that holds it. *)
Definition own_arrows (h : Loop.Host Env) : Prop :=
  ∀ id a, Loop.animations h !! id = Some a →
    ∃ setFunction from to, Loop.setCallabck a = arrow id setFunction from to.

(** The animation [id] is the one the controller tracks: [cancel] is its
    [endAnimation], [animatingTo] its target, and it has not finished. *)
Definition tracks (id : nat) (setFunction : num → W → W) (from to : num)
    (h : Loop.Host Env) : Prop :=
  cancel (controller (Loop.world h)) = Some id ∧
  animatingTo (controller (Loop.world h)) = Some to ∧
  ∃ a, Loop.animations h !! id = Some a ∧
       Loop.setCallabck a = arrow id setFunction from to ∧
       Loop.flushed a = false.

(** [animate(setFunction, from, to, duration)], called at [now], has just
    started the animation [id]: its loop runs the arrow function with the
    controller's easing, its fallback timeout and its first frame are
    pending, and the controller tracks it. *)
Definition started (setFunction : num → W → W) (from to duration now : num)
    (id : nat) (h : Loop.Host Env) : Prop :=
  tracks id setFunction from to h ∧
  ∃ a, Loop.animations h !! id = Some a ∧
       Loop.easeFunction a = easeFunction (controller (Loop.world h)) ∧
       Loop.duration a = duration ∧
       Loop.begin a = now ∧
       Loop.end_ a = (now + duration)%js ∧
       Loop.tickMarker a = None ∧
       Loop.timeouts h !! Loop.timeoutMarker a = Some id ∧
       ∃ k, Loop.frames h !! k = Some id.

(** What holds of the controller and of the callbacks however the
    controller is used. *)
Record governed (h : Loop.Host Env) : Prop := {
  arrows_own : own_arrows h;
  fields_coupled : coupled (controller (Loop.world h));
  cancel_tracks :
    ∀ id, cancel (controller (Loop.world h)) = Some id →
      ∃ setFunction from to, tracks id setFunction from to h
}.

(** The animation [id] runs the arrow function made for [setFunction],
    [from] and [to], ends at [e], and once it has finished the latest value
    its [setFunction] was given is the interpolation at fraction [1]. *)
Definition delivers (id : nat) (setFunction : num → W → W) (from to e : num)
    (h : Loop.Host Env) : Prop :=
  ∃ a, Loop.animations h !! id = Some a ∧
       Loop.setCallabck a = arrow id setFunction from to ∧
       Loop.end_ a = e ∧
       (Loop.flushed a = true → last_set id h = Some (interpolate from to (lit 1))).

(** A frame in which an animation that has not finished is given, before
    its end time, an eased fraction equal to [1]. *)
Definition unit_before_end (h : Loop.Host Env) (e : event) : bool :=
  match e with
  | Fire (Loop.Frame k now) =>
      match Loop.frames h !! k with
      | Some id =>
          match Loop.animations h !! id with
          | Some a =>
              negb (now >=? Loop.end_ a)%js && negb (Loop.flushed a) &&
              (Loop.easeFunction a ((now - Loop.begin a) / Loop.duration a)
                 ==? lit 1)%js
          | None => false
          end
      | None => false
      end
  | _ => false
  end.

(** No event of the run is such a frame. *)
Fixpoint regular (h : Loop.Host Env) (es : list event) : Prop :=
  match es with
  | [] => True
  | e :: es => unit_before_end h e = false ∧ regular (step h e) es
  end.

(** At most one animation is in flight, and it is the tracked one. *)
Definition single_flight (h : Loop.Host Env) : Prop :=
  ∀ id, Loop.in_flight id h → cancel (controller (Loop.world h)) = Some id.

End Controller.
End Controller.

Arguments Controller.AnimationController {_}.
Arguments Controller.Env {_} W.
Arguments Controller.event {_} W.

(** ** [Slider] *)

Module Slider.
Section Slider.
Context {N : Number}.

(** The part of the document a slider works on: the horizontal scroll
    position of its container ([this.slider.scrollLeft]) and the elements
    its slides refer to. *)
Record Page := {
  scrollLeft : num;
  element : nat → Dom.HTMLElement;
  (** What the container keeps when [scrollLeft] is assigned a value: the
      host may clamp the value to the scrollable range, and round it.  What
      is proved of a slider holds for every such function. *)
  stored : num → num
}.

(** A slider: its slides, as references to elements, in the order
    [querySelectorAll] listed them at construction. *)
Record Slider := { slides : list nat }.

Definition State : Type := Loop.Host (Controller.Env Page).

Definition transitionDuration : num := lit 1000.

Definition scrollAnimeController (s : State) : Controller.AnimationController :=
  Controller.controller (Loop.world s).

Definition slider (s : State) : Page := Controller.page (Loop.world s).

(** A page whose container is scrolled to [x] and stores assignments to
    [scrollLeft] by [st], with a fresh slider. *)
Definition initial (x : num) (els : nat → Dom.HTMLElement) (st : num → num) : State :=
  Controller.initial Controller.easeInOutCubic
    {| scrollLeft := x; element := els; stored := st |}.

(** The scroll position [currentElement] compares with. *)
Definition currentScroll (s : State) : num :=
  match Controller.animatingTo (scrollAnimeController s) with
  | Some target => target
  | None => scrollLeft (slider s)
  end.

(** The [for ... of] loop of [currentElement] over the slides left. *)
Fixpoint scan (p : Page) (currentScroll : num) (rest : list nat) : completion nat :=
  match rest with
  | [] => Throw (Error "Bad state")
  | slide :: rest =>
      let left := Dom.left (Dom.getOffset (element p slide)) in
      if (left >=? currentScroll)%js then Normal slide
      else scan p currentScroll rest
  end.

Definition currentElement (sl : Slider) (s : State) : completion nat :=
  scan (slider s) (currentScroll s) (slides sl).

(** [Array.prototype.indexOf]: the first position of [x], or [-1]. *)
Fixpoint indexOf (l : list nat) (x : nat) : Z :=
  match l with
  | [] => -1
  | y :: l =>
      if decide (y = x) then 0
      else let i := indexOf l x in
           if (i <? 0)%Z then -1 else (i + 1)%Z
  end.

(** [l[i]]: [undefined] (here [None]) outside the array. *)
Definition at_index (l : list nat) (i : Z) : option nat :=
  if (i <? 0)%Z then None else l !! Z.to_nat i.

(** [next ? next : null], with [null] as [None]. *)
Definition nextElement (sl : Slider) (s : State) : completion (option nat) :=
  current ← currentElement sl s;
  let currentIdx := indexOf (slides sl) current in
  Normal (at_index (slides sl) (currentIdx + 1)).

Definition previousElement (sl : Slider) (s : State) : completion (option nat) :=
  current ← currentElement sl s;
  let currentIdx := indexOf (slides sl) current in
  Normal (at_index (slides sl) (currentIdx - 1)).

(** [(value) => (slider.scrollLeft = value)]: the container keeps what the
    host makes of the value. *)
Definition assign_scrollLeft (value : num) (p : Page) : Page :=
  {| scrollLeft := stored p value; element := element p; stored := stored p |}.

Definition scrollTo (to : num) (now : num) (s : State) : State :=
  (Controller.animate assign_scrollLeft (scrollLeft (slider s)) to
     transitionDuration now s).2.

(** The click handlers, run when [Date.now()] is [now]. *)
Definition onNextClick (sl : Slider) (now : num) (s : State) : completion State :=
  next ← nextElement sl s;
  match next with
  | Some e => Normal (scrollTo (Dom.left (Dom.getOffset (element (slider s) e))) now s)
  | None => Normal s
  end.

Definition onPreviusClick (sl : Slider) (now : num) (s : State) : completion State :=
  previous ← previousElement sl s;
  match previous with
  | Some e => Normal (scrollTo (Dom.left (Dom.getOffset (element (slider s) e))) now s)
  | None => Normal s
  end.

(** The left offset of a slide, as [getOffset] reports it. *)
Definition offset_left (s : State) (slide : nat) : num :=
  Dom.left (Dom.getOffset (element (slider s) slide)).

(** [left >= currentScroll] for a slide. *)
Definition at_or_after (s : State) (slide : nat) : bool :=
  (offset_left s slide >=? currentScroll s)%js.

(** What happens to a slider: a click on one of its buttons when
    [Date.now()] is [now], the user scrolling the container to [x], or the
    host running a timer. *)
Inductive event :=
| Next (now : num)
| Previous (now : num)
| Scrolled (x : num)
| Host (t : Loop.task).

(** A handler that throws leaves the state as it found it. *)
Definition outcome (c : completion State) (s : State) : State :=
  match c with
  | Normal s' => s'
  | Throw _ => s
  end.

Definition step (sl : Slider) (s : State) (e : event) : State :=
  match e with
  | Next now => outcome (onNextClick sl now s) s
  | Previous now => outcome (onPreviusClick sl now s) s
  | Scrolled x =>
      Loop.with_world
        (fun w => {| Controller.controller := Controller.controller w;
                     Controller.page :=
                       {| scrollLeft := x;
                          element := element (Controller.page w);
                          stored := stored (Controller.page w) |};
                     Controller.sets := Controller.sets w |}) s
  | Host t => Loop.fire t s
  end.

Definition run (sl : Slider) (s : State) (es : list event) : State :=
  foldl (step sl) s es.

(** Every callback the loop holds assigns the container's [scrollLeft]. *)
Definition scrolls (s : State) : Prop :=
  ∀ id a, Loop.animations s !! id = Some a →
    ∃ from to, Loop.setCallabck a = Controller.arrow id assign_scrollLeft from to.

(** What every run of a slider keeps: the controller's invariant, callbacks
    that assign [scrollLeft], and the elements as they were. *)
Definition kept (els : nat → Dom.HTMLElement) (s : State) : Prop :=
  Controller.governed s ∧ scrolls s ∧ element (slider s) = els.

(** The slide is the first one at or after its own left offset: its offset
    compares at or after itself, and no earlier slide's does.  It is so
    when the offsets increase along the list. *)
Definition first_at_own_offset (sl : Slider) (s : State) (slide : nat) : Prop :=
  scan (slider s) (offset_left s slide) (slides sl) = Normal slide.

End Slider.
End Slider.

(** ** Concrete pages and runs, over doubles *)

Module Doubles.
Section Doubles.
#[local] Existing Instance binary64.

(** A [setFunction] that leaves the page alone. *)
Definition keep (value : float) (w : unit) : unit := w.

Definition idle : Loop.Host (Controller.Env unit) :=
  Controller.initial Controller.easeInOutCubic tt.

(** [animate(keep, 1e16, 1, 1000)] at time [0]. *)
Definition far_apart : list (Controller.event unit) :=
  [Controller.Animate keep 1e16%float 1%float 1000%float 0%float].

(** [animate(keep, 0, 100, 1e6)] at time [0], with frames at the times [16]
    and [999999]. *)
Definition long_run : list (Controller.event unit) :=
  [Controller.Animate keep 0%float 100%float 1000000%float 0%float;
   Controller.Fire (Loop.Frame 0 16%float);
   Controller.Fire (Loop.Frame 1 999999%float)].

(** Two animations of one second, the second one started half way through
    the first. *)
Definition two_clicks : list (Controller.event unit) :=
  [Controller.Animate keep 0%float 300%float 1000%float 0%float;
   Controller.Fire (Loop.Frame 0 16%float);
   Controller.Fire (Loop.Frame 1 500%float);
   Controller.Animate keep 150%float 600%float 1000%float 510%float;
   Controller.Fire (Loop.Frame 3 526%float);
   Controller.Fire (Loop.Timeout 1)].

(** An easing that is twice as fast as the clock: [x => Math.min(1, 2 * x)]. *)
Definition brisk (x : float) : float :=
  if (2 * x <? 1)%float then (2 * x)%float else 1%float.

(** The static [animate(keep, brisk, 1000)] at time [0], frames at the times
    [600] and [700], then the fallback timeout. *)
Definition eager : list (Loop.op unit) :=
  [Loop.Begin keep brisk 1000%float 0%float;
   Loop.Host_runs (Loop.Frame 0 600%float);
   Loop.Host_runs (Loop.Frame 1 700%float);
   Loop.Host_runs (Loop.Timeout 0)].

(** Three slides, 300 pixels apart. *)
Definition slide_at (i : nat) : Dom.HTMLElement :=
  {| Dom.scrollTop := Dom.undefined; Dom.scrollLeft := Dom.undefined;
     Dom.scrollHeight := Dom.undefined; Dom.scrollWidth := Dom.undefined;
     Dom.offsetTop := Dom.number 0%float;
     Dom.offsetLeft := Dom.number (float_of_Z (300 * Z.of_nat i));
     Dom.offsetHeight := Dom.number 200%float;
     Dom.offsetWidth := Dom.number 300%float;
     Dom.clientTop := Dom.undefined; Dom.clientLeft := Dom.undefined;
     Dom.clientHeight := Dom.undefined; Dom.clientWidth := Dom.undefined |}.

Definition three : Slider.Slider := {| Slider.slides := [0; 1; 2] |}.

(** A container that shows one slide of the three: it keeps a scroll
    position between [0] and [600]. *)
Definition clamped (value : float) : float :=
  if (value <? 0)%float then 0%float
  else if (600 <? value)%float then 600%float
  else value.

Definition scrolled (x : float) : Slider.State := Slider.initial x slide_at clamped.

End Doubles.
End Doubles.

(** ** Animations in exact arithmetic *)

Module Range.
Section Range.
#[local] Existing Instance exact.
Context {W : Type}.
Import Controller.

(** [v] lies between [from] and [to], whichever of the two is the larger. *)
Definition between (from to v : Q) : Prop :=
  (from <= v ∧ v <= to)%Q ∨ (to <= v ∧ v <= from)%Q.

(** [Date.now()] does not run backwards: a frame runs no earlier than its
    animation began. *)
Definition timely (h : Loop.Host (Env W)) (e : event W) : bool :=
  match e with
  | Fire (Loop.Frame k now) =>
      match Loop.frames h !! k with
      | Some id =>
          match Loop.animations h !! id with
          | Some a => Qle_bool (Loop.begin a) now
          | None => true
          end
      | None => true
      end
  | _ => true
  end.

Fixpoint clocked (h : Loop.Host (Env W)) (es : list (event W)) : Prop :=
  match es with
  | [] => True
  | e :: es => timely h e = true ∧ clocked (step h e) es
  end.

(** What [animate] fixes when it creates the closures of an animation. *)
Definition fixed (a : Loop.Animation (Env W)) :
    (Q → Env W → Env W) * (Q → Q) * Q * Q * Q :=
  (Loop.setCallabck a, Loop.easeFunction a, Loop.duration a, Loop.begin a, Loop.end_ a).

(** The closures of the animation [id] are those the controller makes when
    its easing is the cubic one. *)
Definition made (id : nat) (a : Loop.Animation (Env W)) : Prop :=
  Loop.easeFunction a = easeInOutCubic ∧
  Loop.end_ a = (Loop.begin a + Loop.duration a)%Q ∧
  ∃ setFunction from to, Loop.setCallabck a = arrow id setFunction from to.

(** The value [v] lies between the ends of the animation [id]. *)
Definition within (h : Loop.Host (Env W)) (id : nat) (v : Q) : Prop :=
  ∃ a setFunction from to,
    Loop.animations h !! id = Some a ∧
    Loop.setCallabck a = arrow id setFunction from to ∧
    between from to v.

Record bounded (h : Loop.Host (Env W)) : Prop := {
  ease_kept : easeFunction (controller (Loop.world h)) = easeInOutCubic;
  closures_made : ∀ id a, Loop.animations h !! id = Some a → made id a;
  values_within : ∀ id v, (id, v) ∈ sets (Loop.world h) → within h id v
}.

(** [animate(keep, 0, 300, 1000)] at time [0], then a frame at time [500]. *)
Definition half_way : list (event unit) :=
  [Animate (fun _ w => w) 0%Q 300%Q 1000%Q 0%Q; Fire (Loop.Frame 0 500%Q)].

End Range.
End Range.

(** * Properties *)

(** ** The geometry readers *)

Section DomFacts.
Context {N : Number}.
Import Dom.

Lemma or_zero_coerced (v : value) : coerced v (or_zero v).
Proof.
  unfold coerced, or_zero. destruct v as [|x]; simpl.
  - split; [apply isNaN_zero | split; [discriminate | reflexivity]].
  - destruct (isNaN x) eqn:En; simpl.
    + split; [apply isNaN_zero | split; [discriminate | reflexivity]].
    + destruct (x ==? lit 0)%js; simpl.
      * split; [apply isNaN_zero | split; [discriminate | reflexivity]].
      * split; [exact En | split; [reflexivity | discriminate]].
Qed.

Lemma getOffset_coerced (el : HTMLElement) :
  coerced_box (offsetTop el) (offsetLeft el) (offsetHeight el) (offsetWidth el)
    (getOffset el).
Proof. repeat split; apply or_zero_coerced. Qed.

Lemma getClient_coerced (el : HTMLElement) :
  coerced_box (clientTop el) (clientLeft el) (clientHeight el) (clientWidth el)
    (getClient el).
Proof. repeat split; apply or_zero_coerced. Qed.

(** C10.  Given an element, [getScroll], [getOffset] and [getClient] return
    (they do not throw), and each of the four fields of the record is a
    number that is not NaN: the element's property when that is truthy, and
    [0] when the property is undefined or otherwise falsy. *)
Theorem geometry_readers_total (g : Globals) (el : HTMLElement) :
  (∃ b, getScroll g (Some el) = Normal b ∧
        coerced_box (scrollTop el) (scrollLeft el) (scrollHeight el) (scrollWidth el) b) ∧
  coerced_box (offsetTop el) (offsetLeft el) (offsetHeight el) (offsetWidth el)
    (getOffset el) ∧
  coerced_box (clientTop el) (clientLeft el) (clientHeight el) (clientWidth el)
    (getClient el).
Proof.
  split; [| split; [apply getOffset_coerced | apply getClient_coerced]].
  eexists. split; [reflexivity |].
  repeat split; apply or_zero_coerced.
Qed.

End DomFacts.

(** ** The slider's current slide *)

Section SliderFacts.
Context {N : Number}.
Import Slider.

Lemma scan_spec (p : Page) (x : num) (l : list nat) :
  match scan p x l with
  | Normal slide =>
      ∃ before after, l = before ++ slide :: after ∧
        (Dom.left (Dom.getOffset (element p slide)) >=? x)%js = true ∧
        ∀ y, y ∈ before → (Dom.left (Dom.getOffset (element p y)) >=? x)%js = false
  | Throw e =>
      e = Error "Bad state" ∧
      ∀ y, y ∈ l → (Dom.left (Dom.getOffset (element p y)) >=? x)%js = false
  end.
Proof.
  induction l as [|slide l IH]; cbn [scan].
  - split; [reflexivity |]. intros y Hy. by apply elem_of_nil in Hy.
  - destruct (Dom.left (Dom.getOffset (element p slide)) >=? x)%js eqn:E; cbv beta iota.
    + exists [], l. split; [reflexivity |]. split; [exact E |].
      intros y Hy. by apply elem_of_nil in Hy.
    + destruct (scan p x l) as [found | e].
      * destruct IH as (before & after & -> & Hfound & Hbefore).
        exists (slide :: before), after.
        split; [reflexivity |]. split; [exact Hfound |].
        intros y Hy. apply elem_of_cons in Hy as [-> | Hy]; auto.
      * destruct IH as [-> Hnone]. split; [reflexivity |].
        intros y Hy. apply elem_of_cons in Hy as [-> | Hy]; auto.
Qed.

(** C2.  [currentElement] returns the first slide, in the order of the
    slide list, whose left offset is at or after the effective scroll
    position, and it throws exactly when no slide is; the effective scroll
    position is the target of the animation when the controller is
    animating and the container's [scrollLeft] otherwise. *)
Theorem currentElement_first_at_or_after (sl : Slider) (s : State) :
  match currentElement sl s with
  | Normal slide =>
      ∃ before after, slides sl = before ++ slide :: after ∧
        at_or_after s slide = true ∧
        ∀ y, y ∈ before → at_or_after s y = false
  | Throw e => e = Error "Bad state"
  end ∧
  ((∃ e, currentElement sl s = Throw e) ↔ ∀ y, y ∈ slides sl → at_or_after s y = false) ∧
  (if Controller.isAnimating (scrollAnimeController s)
   then Controller.animatingTo (scrollAnimeController s) = Some (currentScroll s)
   else currentScroll s = scrollLeft (slider s)).
Proof.
  unfold currentElement, at_or_after, offset_left.
  pose proof (scan_spec (slider s) (currentScroll s) (slides sl)) as Hscan.
  split; [| split].
  - destruct (scan _ _ _) as [slide | e]; [exact Hscan | apply Hscan].
  - destruct (scan _ _ _) as [slide | e].
    + destruct Hscan as (before & after & Hl & Hfound & _). split.
      * intros [e He]. discriminate.
      * intros Hnone. specialize (Hnone slide).
        rewrite Hfound in Hnone. discriminate Hnone.
        rewrite Hl. apply elem_of_app. right. apply elem_of_cons. by left.
    + destruct Hscan as [_ Hnone]. split; [intros _; exact Hnone | eauto].
  - unfold Controller.isAnimating, currentScroll.
    destruct (Controller.animatingTo (scrollAnimeController s)); reflexivity.
Qed.

End SliderFacts.

(** ** The timer-driven loop *)

Section LoopFacts.
Context {N : Number} {World : Type}.
Import Loop.
Implicit Types (h : Host World) (a : Animation World).

Lemma endAnimation_absent id h :
  animations h !! id = None → endAnimation id h = h.
Proof. intros E. unfold endAnimation. by rewrite E. Qed.

Lemma endAnimation_flushed id h a :
  animations h !! id = Some a → flushed a = true →
  endAnimation id h =
    cancelAnimationFrame (tickMarker a) (clearTimeout (timeoutMarker a) h).
Proof. intros E F. unfold endAnimation. by rewrite E, F. Qed.

Lemma endAnimation_in_flight id h a :
  animations h !! id = Some a → flushed a = false →
  endAnimation id h =
    with_animations (alter set_flushed id)
      (invoke id true a (lit 1)
         (cancelAnimationFrame (tickMarker a) (clearTimeout (timeoutMarker a) h))).
Proof. intros E F. unfold endAnimation. by rewrite E, F. Qed.

Lemma consistent_empty (w : World) : consistent (empty w).
Proof.
  split; simpl; try done.
Qed.

Lemma consistent_with_world f h : consistent h → consistent (with_world f h).
Proof. intros [? ? ? ? ?]. by split. Qed.

Lemma consistent_with_frames f h : consistent h → consistent (with_frames f h).
Proof. intros [? ? ? ? ?]. by split. Qed.

Lemma consistent_cancelAnimationFrame k h :
  consistent h → consistent (cancelAnimationFrame k h).
Proof. destruct k; [apply consistent_with_frames | done]. Qed.



(** The invariant reads the animations, the timeouts and the call log only. *)
Lemma consistent_same h h' :
  animations h' = animations h → timeouts h' = timeouts h →
  next_timeout h' = next_timeout h → calls h' = calls h →
  consistent h → consistent h'.
Proof.
  intros Ea Et En Ec [H1 H2 H3 H4 H5].
  split; unfold calls_of; rewrite ?Ea, ?Et, ?En, ?Ec; done.
Qed.

Lemma consistent_clear id a h h' :
  animations h !! id = Some a → flushed a = true →
  animations h' = animations h → timeouts h' = delete id (timeouts h) →
  next_timeout h' = next_timeout h → calls h' = calls h →
  consistent h → consistent h'.
Proof.
  intros Ha Fa Ea Et En Ec [H1 H2 H3 H4 H5].
  split; unfold calls_of; rewrite ?Ea, ?Et, ?En, ?Ec; try done.
  - intros k id' [Hk Hl]%lookup_delete_Some. by apply H3.
  - intros id' a' Ea' Fa'. rewrite lookup_delete_ne; [by eapply H4 |].
    intros ->. congruence.
Qed.

Lemma consistent_flush id a h h' :
  animations h !! id = Some a → flushed a = false →
  animations h' = alter set_flushed id (animations h) →
  timeouts h' = delete id (timeouts h) →
  next_timeout h' = next_timeout h →
  calls h' = {| call_of := id; final := true; percent := lit 1 |} :: calls h →
  consistent h → consistent h'.
Proof.
  intros Ha Fa Ea Et En Ec [H1 H2 H3 H4 H5].
  split; unfold calls_of; rewrite ?Ea, ?Et, ?En, ?Ec.
  - by rewrite length_alter.
  - intros id' a'. rewrite list_lookup_alter. case_decide as Hid.
    + subst id'. rewrite Ha. intros [= <-]. by apply (H2 id a).
    + apply H2.
  - intros k id' [Hk Hl]%lookup_delete_Some.
    destruct (H3 k id' Hl) as [-> Hsome]. split; [done |].
    rewrite list_lookup_alter. case_decide; [| done].
    subst id'. by rewrite Ha.
  - intros id' a'. rewrite list_lookup_alter. case_decide as Hid.
    + subst id'. rewrite Ha. by intros [= <-].
    + intros Ha' Fa'. rewrite lookup_delete_ne by done. by eapply H4.
  - intros id'. specialize (H5 id'). unfold calls_of in H5.
    rewrite list_lookup_alter, filter_cons. simpl. case_decide as Hid.
    + subst id'. rewrite Ha in H5 |- *. rewrite Fa in H5. simpl.
      by eexists.
    + exact H5.
Qed.

Lemma consistent_ticked id a k p h h' :
  animations h !! id = Some a → flushed a = false →
  animations h' = alter (set_tickMarker k) id (animations h) →
  timeouts h' = timeouts h →
  next_timeout h' = next_timeout h →
  calls h' = {| call_of := id; final := false; percent := p |} :: calls h →
  consistent h → consistent h'.
Proof.
  intros Ha Fa Ea Et En Ec [H1 H2 H3 H4 H5].
  split; unfold calls_of; rewrite ?Ea, ?Et, ?En, ?Ec.
  - by rewrite length_alter.
  - intros id' a'. rewrite list_lookup_alter. case_decide as Hid.
    + subst id'. rewrite Ha. intros [= <-]. by apply (H2 id a).
    + apply H2.
  - intros k' id' Hl.
    destruct (H3 k' id' Hl) as [-> Hsome]. split; [done |].
    rewrite list_lookup_alter. case_decide; [| done].
    subst id'. by rewrite Ha.
  - intros id' a'. rewrite list_lookup_alter. case_decide as Hid.
    + subst id'. rewrite Ha. intros [= <-] _. by eapply H4.
    + apply H4.
  - intros id'. specialize (H5 id'). unfold calls_of in H5.
    rewrite list_lookup_alter, filter_cons. simpl. case_decide as Hid.
    + subst id'. rewrite Ha in H5 |- *. rewrite Fa in H5. simpl.
      rewrite Fa. by apply Forall_cons.
    + exact H5.
Qed.

Lemma consistent_begun a h h' :
  timeoutMarker a = length (animations h) → flushed a = false →
  animations h' = animations h ++ [a] →
  timeouts h' = <[length (animations h) := length (animations h)]> (timeouts h) →
  next_timeout h' = S (next_timeout h) →
  calls h' = calls h →
  consistent h → consistent h'.
Proof.
  intros Hm Fa Ea Et En Ec [H1 H2 H3 H4 H5].
  split; unfold calls_of; rewrite ?Ea, ?Et, ?En, ?Ec.
  - rewrite length_app. simpl. lia.
  - intros id' a' [[_ Hl] | [-> <-]]%lookup_snoc_Some; [by apply H2 | done].
  - intros k id' [[<- <-] | [Hne Hl]]%lookup_insert_Some.
    + split; [done |]. rewrite list_lookup_middle by done. by eexists.
    + destruct (H3 k id' Hl) as [-> [x Hx]]. split; [done |].
      exists x. by apply lookup_app_l_Some.
  - intros id' a' [[Hlt Hl] | [-> <-]]%lookup_snoc_Some Fa'.
    + rewrite lookup_insert_ne by lia. by eapply H4.
    + apply lookup_insert_eq.
  - intros id'. specialize (H5 id'). unfold calls_of in H5.
    rewrite lookup_app. destruct (animations h !! id') as [x|] eqn:Ex; [done |].
    rewrite H5. destruct ([a] !! _) as [y|] eqn:Ey; [| done].
    apply list_lookup_singleton_Some in Ey as [_ <-]. rewrite Fa. constructor.
Qed.

Lemma consistent_endAnimation id h : consistent h → consistent (endAnimation id h).
Proof.
  intros Hc.
  destruct (animations h !! id) as [a|] eqn:Ea;
    [| by rewrite endAnimation_absent].
  pose proof (marker_is_own h Hc id a Ea) as Hm.
  destruct (flushed a) eqn:Fa.
  - rewrite (endAnimation_flushed id h a Ea Fa).
    apply (consistent_clear id a h); try done;
      destruct (tickMarker a); simpl; congruence.
  - rewrite (endAnimation_in_flight id h a Ea Fa).
    apply (consistent_flush id a h); try done;
      destruct (tickMarker a); simpl; congruence.
Qed.

Lemma consistent_tick id now h : consistent h → consistent (tick id now h).
Proof.
  intros Hc. unfold tick.
  destruct (animations h !! id) as [a|] eqn:Ea; [| done].
  destruct (now >=? end_ a)%js; [by apply consistent_endAnimation |].
  destruct (flushed a) eqn:Fa; [done |].
  by eapply (consistent_ticked id a _ _ h).
Qed.

Lemma consistent_fire t h : consistent h → consistent (fire t h).
Proof.
  intros Hc. destruct t as [k | k now]; simpl.
  - destruct (timeouts h !! k) as [id|] eqn:Ek; [| done].
    destruct (timeout_owner h Hc k id Ek) as [-> [a Ea]].
    pose proof (marker_is_own h Hc id a Ea) as Hm.
    destruct (flushed a) eqn:Fa.
    + rewrite (endAnimation_flushed id (with_timeouts (delete id) h) a Ea Fa).
      apply (consistent_clear id a h); try done;
        destruct (tickMarker a); simpl; rewrite ?Hm, ?delete_delete_eq; done.
    + rewrite (endAnimation_in_flight id (with_timeouts (delete id) h) a Ea Fa).
      apply (consistent_flush id a h); try done;
        destruct (tickMarker a); simpl; rewrite ?Hm, ?delete_delete_eq; done.
  - destruct (frames h !! k) as [id|]; [| done].
    by apply consistent_tick, consistent_with_frames.
Qed.

Lemma consistent_animate setCallabck easeFunction duration now h :
  consistent h → consistent (animate setCallabck easeFunction duration now h).2.
Proof.
  intros Hc. unfold animate, setTimeout, requestAnimationFrame. simpl.
  pose proof (timeouts_allocated h Hc) as Hn.
  eapply (consistent_begun _ h); try done; simpl; by rewrite ?Hn.
Qed.

Lemma consistent_apply h o : consistent h → consistent (apply h o).
Proof.
  intros Hc. destruct o; simpl.
  - by apply consistent_animate.
  - by apply consistent_fire.
  - by apply consistent_endAnimation.
  - by apply consistent_with_world.
Qed.

Lemma consistent_exec h os : consistent h → consistent (exec h os).
Proof.
  revert h. induction os as [|o os IH]; intros h Hc; [done |].
  apply IH, consistent_apply, Hc.
Qed.

Lemma consistent_final_once id h : consistent h → final_once id h.
Proof.
  intros Hc newer c older Hsplit Hfinal.
  pose proof (calls_shape h Hc id) as Hshape. rewrite Hsplit in Hshape.
  assert (Hquiet : ∀ cs, quiet cs → c ∈ cs → False).
  { intros cs Hq Hin. unfold quiet in Hq. rewrite Forall_forall in Hq.
    specialize (Hq c Hin). congruence. }
  destruct (animations h !! id) as [a|].
  - destruct (flushed a).
    + destruct Hshape as (older' & Heq & Hq). destruct newer as [|x newer].
      * simpl in Heq. injection Heq as -> ->. done.
      * simpl in Heq. injection Heq as -> <-. exfalso.
        apply (Hquiet _ Hq). apply elem_of_app. right. by left.
    + exfalso. apply (Hquiet _ Hshape). apply elem_of_app. right. by left.
  - by destruct newer.
Qed.

Lemma endAnimation_twice id h :
  endAnimation id (endAnimation id h) = endAnimation id h.
Proof.
  destruct (animations h !! id) as [a|] eqn:Ea;
    [| by rewrite !(endAnimation_absent id h Ea)].
  destruct (flushed a) eqn:Fa.
  - rewrite (endAnimation_flushed id h a Ea Fa).
    rewrite (endAnimation_flushed id _ a); [| by destruct (tickMarker a) | done].
    destruct a as [? ? ? ? ? tm [k|] ?], h;
      cbv [cancelAnimationFrame clearTimeout with_timeouts with_frames]; simpl;
      by rewrite !delete_delete_eq.
  - rewrite (endAnimation_in_flight id h a Ea Fa).
    rewrite (endAnimation_flushed id _ (set_flushed a)); [| | done].
    + destruct a as [? ? ? ? ? tm [k|] ?], h;
        cbv [cancelAnimationFrame clearTimeout with_timeouts with_frames
             with_animations invoke]; simpl;
        by rewrite !delete_delete_eq.
    + destruct (tickMarker a); simpl; by rewrite list_lookup_alter_eq, Ea.
Qed.

Lemma moves_same id h h' :
  calls h' = calls h → animations h' = animations h → moves id h h'.
Proof. intros Ec Ea. left. unfold calls_of, is_flushed. by rewrite Ec, Ea. Qed.

Lemma moves_from id h0 h h' :
  calls h0 = calls h → animations h0 = animations h → moves id h0 h' → moves id h h'.
Proof.
  intros Ec Ea. unfold moves, calls_of, is_flushed. by rewrite Ec, Ea.
Qed.

Lemma moves_endAnimation id id' h : moves id h (endAnimation id' h).
Proof.
  destruct (animations h !! id') as [a|] eqn:Ea;
    [| rewrite (endAnimation_absent id' h Ea); by left].
  destruct (flushed a) eqn:Fa.
  - rewrite (endAnimation_flushed id' h a Ea Fa).
    apply moves_same; by destruct (tickMarker a).
  - rewrite (endAnimation_in_flight id' h a Ea Fa).
    unfold moves, calls_of, is_flushed. simpl.
    assert (Ec : calls (cancelAnimationFrame (tickMarker a)
                          (clearTimeout (timeoutMarker a) h)) = calls h)
      by (by destruct (tickMarker a)).
    assert (El : animations (cancelAnimationFrame (tickMarker a)
                          (clearTimeout (timeoutMarker a) h)) = animations h)
      by (by destruct (tickMarker a)).
    rewrite Ec, El, filter_cons, list_lookup_alter. simpl.
    destruct (decide (id' = id)) as [-> | Hne].
    + right; left. rewrite Ea. simpl. by rewrite Fa.
    + by left.
Qed.

Lemma moves_tick id id' now h : moves id h (tick id' now h).
Proof.
  unfold tick. destruct (animations h !! id') as [a|] eqn:Ea; [| by left].
  destruct (now >=? end_ a)%js; [apply moves_endAnimation |].
  destruct (flushed a) eqn:Fa; [by left |].
  unfold moves, calls_of, is_flushed. simpl.
  rewrite filter_cons, list_lookup_alter. simpl.
  destruct (decide (id' = id)) as [-> | Hne].
  - right; right. rewrite Ea. simpl. rewrite Fa. eauto.
  - by left.
Qed.

Lemma moves_animate id cb ease d now h : moves id h (animate cb ease d now h).2.
Proof.
  left. unfold animate, calls_of, is_flushed. simpl. split; [done |].
  destruct (animations h !! id) as [a|] eqn:Ea.
  - by rewrite (lookup_app_l_Some _ _ _ _ Ea).
  - apply lookup_ge_None in Ea.
    destruct (decide (id = length (animations h))) as [-> | Hne].
    + by rewrite list_lookup_middle.
    + rewrite lookup_ge_None_2; [done |]. rewrite length_app. simpl. lia.
Qed.

Lemma moves_apply id h (o : op World) : moves id h (apply h o).
Proof.
  destruct o as [cb ease d now | [k | k now] | id' | f]; simpl.
  - apply moves_animate.
  - destruct (timeouts h !! k) as [id'|]; [| by left].
    apply (moves_from id (with_timeouts (delete k) h)); [done.. |].
    apply moves_endAnimation.
  - destruct (frames h !! k) as [id'|]; [| by left].
    apply (moves_from id (with_frames (delete k) h)); [done.. |].
    apply moves_tick.
  - apply moves_endAnimation.
  - by left.
Qed.

(** C9 (amended).  The function the static [animate] returns is
    idempotent.  However it is called and the timers fire, [endAnimation]
    calls the callback at most once for an animation, with the fraction
    [1], and no call of the callback comes after that one: once the
    animation has finished, no step adds a call or un-finishes it, and the
    step that finishes it adds that one call and no other.  (A tick before
    the end passes what the easing returns, which can be [1] too.)  The
    calls are listed newest first. *)
Theorem endAnimation_final_once (w : World) (os : list (op World)) (id : nat) :
  let h := exec (empty w) os in
  final_once id h ∧
  endAnimation id (endAnimation id h) = endAnimation id h ∧
  (∀ o, is_flushed id h = true →
     calls_of id (apply h o) = calls_of id h ∧ is_flushed id (apply h o) = true) ∧
  (∀ o, is_flushed id h = false → is_flushed id (apply h o) = true →
     calls_of id (apply h o) =
       {| call_of := id; final := true; percent := lit 1 |} :: calls_of id h).
Proof.
  cbv zeta. split; [apply consistent_final_once, consistent_exec, consistent_empty |].
  split; [apply endAnimation_twice |].
  repeat split.
  - destruct (moves_apply id (exec (empty w) os) o)
      as [[Hc _] | [(Hf & _) | (Hf & _)]]; [done | congruence..].
  - destruct (moves_apply id (exec (empty w) os) o)
      as [[_ Hf] | [(Hf & _) | (Hf & _)]]; congruence.
  - intros o Hf Hf'.
    destruct (moves_apply id (exec (empty w) os) o)
      as [[_ E] | [(_ & _ & Hc) | (_ & E & _)]]; [congruence | done | congruence].
Qed.

End LoopFacts.

(** ** The controller *)

Section ControllerFacts.
Context {N : Number} {W : Type}.
Import Controller.
Implicit Types (h : Loop.Host (Env W)) (e : Env W) (c : AnimationController).

Lemma arrow_sets id (f : num → W → W) from to p e :
  sets (arrow id f from to p e) = (id, interpolate from to p) :: sets e.
Proof. unfold arrow. by destruct (p ==? lit 1)%js. Qed.

Lemma arrow_page id (f : num → W → W) from to p e :
  page (arrow id f from to p e) = f (interpolate from to p) (page e).
Proof. unfold arrow. by destruct (p ==? lit 1)%js. Qed.

Lemma arrow_controller id (f : num → W → W) from to p e :
  controller (arrow id f from to p e) =
    if (p ==? lit 1)%js
    then set_cancel None (set_animatingTo None (controller e))
    else controller e.
Proof. unfold arrow. by destruct (p ==? lit 1)%js. Qed.

Lemma arrow_final_controller id (f : num → W → W) from to e :
  cancel (controller (arrow id f from to (lit 1) e)) = None ∧
  animatingTo (controller (arrow id f from to (lit 1) e)) = None.
Proof. rewrite arrow_controller, one_eq_one. done. Qed.

Lemma arrow_easeFunction id (f : num → W → W) from to p e :
  easeFunction (controller (arrow id f from to p e)) = easeFunction (controller e).
Proof. rewrite arrow_controller. by destruct (p ==? lit 1)%js. Qed.

#[local] Arguments arrow : simpl never.

(** The state of the program after an animation in flight is ended. *)
Lemma world_endAnimation id h a :
  Loop.animations h !! id = Some a → Loop.flushed a = false →
  Loop.world (Loop.endAnimation id h) = Loop.setCallabck a (lit 1) (Loop.world h).
Proof.
  intros Ea Fa. rewrite (endAnimation_in_flight id h a Ea Fa).
  by destruct (Loop.tickMarker a).
Qed.

Lemma world_endAnimation_flushed id h a :
  Loop.animations h !! id = Some a → Loop.flushed a = true →
  Loop.world (Loop.endAnimation id h) = Loop.world h.
Proof.
  intros Ea Fa. rewrite (endAnimation_flushed id h a Ea Fa).
  by destruct (Loop.tickMarker a).
Qed.

Lemma animations_endAnimation id h :
  Loop.animations (Loop.endAnimation id h) =
    match Loop.animations h !! id with
    | Some a => if Loop.flushed a then Loop.animations h
                else alter Loop.set_flushed id (Loop.animations h)
    | None => Loop.animations h
    end.
Proof.
  unfold Loop.endAnimation. destruct (Loop.animations h !! id) as [a|]; [| done].
  destruct (Loop.flushed a), (Loop.tickMarker a); done.
Qed.

Lemma length_endAnimation id h :
  length (Loop.animations (Loop.endAnimation id h)) = length (Loop.animations h).
Proof.
  rewrite animations_endAnimation.
  destruct (Loop.animations h !! id) as [a|]; [| done].
  destruct (Loop.flushed a); [done | apply length_alter].
Qed.


(** The controller's invariant reads the animations and the state of the
    program only, not the timers. *)
Lemma governed_same h h' :
  Loop.animations h' = Loop.animations h → Loop.world h' = Loop.world h →
  governed h → governed h'.
Proof.
  intros Ea Ew [H1 H2 H3].
  split; unfold own_arrows, tracks in *; rewrite ?Ea, ?Ew; done.
Qed.

Lemma governed_endAnimation id h : governed h → governed (Loop.endAnimation id h).
Proof.
  intros Hg.
  destruct (Loop.animations h !! id) as [a|] eqn:Ea;
    [| by rewrite endAnimation_absent].
  destruct (Loop.flushed a) eqn:Fa.
  - apply (governed_same h); [| | done].
    + by rewrite animations_endAnimation, Ea, Fa.
    + by apply (world_endAnimation_flushed id h a).
  - destruct (arrows_own h Hg id a Ea) as (f & from & to & Hcb).
    pose proof (world_endAnimation id h a Ea Fa) as Hw. rewrite Hcb in Hw.
    pose proof (animations_endAnimation id h) as Hl. rewrite Ea, Fa in Hl.
    destruct (arrow_final_controller id f from to (Loop.world h)) as [Hc Ht].
    split.
    + intros id' a'. rewrite Hl, list_lookup_alter. case_decide as Hid.
      * subst id'. rewrite Ea. intros [= <-]. simpl. eauto.
      * apply (arrows_own h Hg).
    + unfold coupled. rewrite Hw, Hc, Ht. done.
    + intros id'. rewrite Hw, Hc. done.
Qed.

Lemma governed_tick id now h : governed h → governed (Loop.tick id now h).
Proof.
  intros Hg. unfold Loop.tick.
  destruct (Loop.animations h !! id) as [a|] eqn:Ea; [| done].
  destruct (now >=? Loop.end_ a)%js; [by apply governed_endAnimation |].
  destruct (Loop.flushed a) eqn:Fa; [done |].
  destruct (arrows_own h Hg id a Ea) as (f & from & to & Hcb).
  simpl. rewrite Hcb.
  set (p := Loop.easeFunction a _).
  split; simpl.
  - unfold own_arrows; simpl.
    intros id' a'. rewrite list_lookup_alter. case_decide as Hid.
    + subst id'. rewrite Ea. intros [= <-]. simpl. eauto.
    + apply (arrows_own h Hg).
  - unfold coupled. rewrite ?arrow_controller.
    destruct (p ==? lit 1)%js; [done | apply (fields_coupled h Hg)].
  - intros id'. unfold tracks. simpl. rewrite ?arrow_controller.
    destruct (p ==? lit 1)%js; [done |].
    intros Hc. destruct (cancel_tracks h Hg id' Hc) as (f' & from' & to' & T).
    destruct T as (_ & Ht & a' & Ea' & Hcb' & Fa').
    exists f', from', to'. split; [done |]. split; [done |].
    rewrite list_lookup_alter. case_decide as Hid.
    + subst id'. rewrite Ea. simpl. eexists. split; [reflexivity |].
      assert (a' = a) as -> by congruence. done.
    + eauto.
Qed.

Lemma governed_fire t h : governed h → governed (Loop.fire t h).
Proof.
  intros Hg. destruct t as [k | k now]; simpl.
  - destruct (Loop.timeouts h !! k); [| done].
    by apply governed_endAnimation, (governed_same h).
  - destruct (Loop.frames h !! k); [| done].
    by apply governed_tick, (governed_same h).
Qed.


Lemma governed_settle h : governed h → governed (settle h).
Proof.
  intros Hg. unfold settle.
  destruct (cancel (controller (Loop.world h))); [by apply governed_endAnimation | done].
Qed.

Lemma consistent_settle h : Loop.consistent h → Loop.consistent (settle h).
Proof.
  intros Hc. unfold settle.
  destruct (cancel (controller (Loop.world h))); [by apply consistent_endAnimation | done].
Qed.

Lemma length_settle h :
  length (Loop.animations (settle h)) = length (Loop.animations h).
Proof.
  unfold settle. destruct (cancel (controller (Loop.world h)));
    [apply length_endAnimation | done].
Qed.

(** Once settled, the controller is idle. *)
Lemma settle_idle h :
  governed h →
  cancel (controller (Loop.world (settle h))) = None ∧
  animatingTo (controller (Loop.world (settle h))) = None.
Proof.
  intros Hg. unfold settle.
  destruct (cancel (controller (Loop.world h))) as [old|] eqn:Hc.
  - destruct (cancel_tracks h Hg old Hc) as (f & from & to & _ & _ & a & Ea & Hcb & Fa).
    rewrite (world_endAnimation old h a Ea Fa), Hcb.
    apply arrow_final_controller.
  - split; [done |]. by apply (fields_coupled h Hg).
Qed.

Lemma start_id (f : num → W → W) from to duration now h :
  (start f from to duration now h).1 = length (Loop.animations h).
Proof. reflexivity. Qed.

Lemma animate_id (f : num → W → W) from to duration now h :
  (animate f from to duration now h).1 = length (Loop.animations h).
Proof. unfold animate. by rewrite start_id, length_settle. Qed.

Lemma start_started (f : num → W → W) from to duration now h :
  started f from to duration now
    (start f from to duration now h).1 (start f from to duration now h).2.
Proof.
  unfold started, tracks, start, Loop.animate. simpl.
  rewrite list_lookup_middle by done.
  split.
  - split; [done |]. split; [done |]. by eexists.
  - eexists. split; [reflexivity |]. simpl. repeat (split; [done |]).
    split; [apply lookup_insert_eq |].
    eexists. apply lookup_insert_eq.
Qed.

Lemma animate_started (f : num → W → W) from to duration now h :
  started f from to duration now
    (animate f from to duration now h).1 (animate f from to duration now h).2.
Proof. apply start_started. Qed.

Lemma start_page (f : num → W → W) from to duration now h :
  page (Loop.world (start f from to duration now h).2) = page (Loop.world h) ∧
  sets (Loop.world (start f from to duration now h).2) = sets (Loop.world h).
Proof. done. Qed.

Lemma start_lookup (f : num → W → W) from to duration now h id a :
  Loop.animations h !! id = Some a →
  Loop.animations (start f from to duration now h).2 !! id = Some a.
Proof. intros Ea. unfold start, Loop.animate. simpl. by apply lookup_app_l_Some. Qed.

Lemma governed_start (f : num → W → W) from to duration now h :
  governed h → governed (start f from to duration now h).2.
Proof.
  intros Hg.
  pose proof (start_started f from to duration now h) as [Ht _].
  split.
  - unfold start, Loop.animate, own_arrows. simpl.
    intros id a [[_ Hl] | [-> <-]]%lookup_snoc_Some.
    + by apply (arrows_own h Hg).
    + simpl. eauto.
  - destruct Ht as (Hc & Ha & _). unfold coupled. rewrite Hc, Ha. done.
  - intros id Hc. destruct Ht as (Hc' & _). rewrite Hc in Hc'.
    injection Hc' as ->. exists f, from, to.
    apply (start_started f from to duration now h).
Qed.

Lemma consistent_start (f : num → W → W) from to duration now h :
  Loop.consistent h → Loop.consistent (start f from to duration now h).2.
Proof.
  intros Hc. unfold start.
  pose proof (consistent_animate
    (arrow (length (Loop.animations h)) f from to)
    (easeFunction (controller (Loop.world h))) duration now
    (Loop.with_world (with_controller (set_animatingTo (Some to))) h)
    (consistent_with_world _ _ Hc)) as H.
  destruct (Loop.animate _ _ _ _ _) as [id h'] eqn:E. simpl in *.
  by apply consistent_with_world.
Qed.

(** *** Every run keeps the invariants *)

Lemma governed_step h (ev : event W) : governed h → governed (step h ev).
Proof.
  intros Hg. destruct ev; simpl.
  - by apply governed_start, governed_settle.
  - by apply governed_fire.
  - by apply governed_endAnimation.
Qed.

Lemma consistent_step h (ev : event W) :
  Loop.consistent h → Loop.consistent (step h ev).
Proof.
  intros Hc. destruct ev; simpl.
  - by apply consistent_start, consistent_settle.
  - by apply consistent_fire.
  - by apply consistent_endAnimation.
Qed.

Lemma governed_initial ease (w : W) : governed (initial ease w).
Proof.
  split.
  - intros id a Ha. by destruct id.
  - done.
  - done.
Qed.

Lemma governed_run h (es : list (event W)) : governed h → governed (run h es).
Proof.
  revert h. induction es as [|ev es IH]; intros h Hg; [done |].
  apply IH, governed_step, Hg.
Qed.

Lemma consistent_run h (es : list (event W)) :
  Loop.consistent h → Loop.consistent (run h es).
Proof.
  revert h. induction es as [|ev es IH]; intros h Hc; [done |].
  apply IH, consistent_step, Hc.
Qed.


(** *** The value of the final call *)

Lemma last_set_same id h h' :
  sets (Loop.world h') = sets (Loop.world h) → last_set id h' = last_set id h.
Proof. unfold last_set. by intros ->. Qed.

Lemma last_set_cons id id' v h h' :
  sets (Loop.world h') = (id', v) :: sets (Loop.world h) →
  last_set id h' = if decide (id' = id) then Some v else last_set id h.
Proof.
  unfold last_set. intros ->. rewrite filter_cons. simpl.
  by case_decide.
Qed.

Section Delivers.
Context (id : nat) (f : num → W → W) (from to e : num).

Lemma delivers_same h h' :
  Loop.animations h' = Loop.animations h → Loop.world h' = Loop.world h →
  delivers id f from to e h → delivers id f from to e h'.
Proof.
  intros Ea Ew (a & Ha & Hcb & He & Hv). exists a.
  rewrite Ea. repeat (split; [done |]).
  intros Fa. rewrite (last_set_same id h h'); [auto | by rewrite Ew].
Qed.

Lemma delivers_endAnimation id' h :
  governed h → delivers id f from to e h →
  delivers id f from to e (Loop.endAnimation id' h).
Proof.
  intros Hg (a & Ha & Hcb & He & Hv).
  destruct (Loop.animations h !! id') as [a'|] eqn:Ea';
    [| rewrite endAnimation_absent by done; by exists a].
  destruct (Loop.flushed a') eqn:Fa'.
  - apply (delivers_same h); [| | by exists a].
    + by rewrite animations_endAnimation, Ea', Fa'.
    + by apply (world_endAnimation_flushed id' h a').
  - destruct (arrows_own h Hg id' a' Ea') as (f' & from' & to' & Hcb').
    pose proof (world_endAnimation id' h a' Ea' Fa') as Hw. rewrite Hcb' in Hw.
    pose proof (animations_endAnimation id' h) as Hl. rewrite Ea', Fa' in Hl.
    assert (Hs : sets (Loop.world (Loop.endAnimation id' h)) =
                 (id', interpolate from' to' (lit 1)) :: sets (Loop.world h))
      by (by rewrite Hw, arrow_sets).
    destruct (decide (id' = id)) as [-> | Hne].
    + assert (a' = a) as -> by congruence.
      exists (Loop.set_flushed a). rewrite Hl, list_lookup_alter_eq, Ha.
      repeat (split; [done |]). intros _.
      rewrite (last_set_cons id id _ h _ Hs), decide_True by done.
      rewrite Hcb in Hcb'.
      apply (f_equal (fun g => sets (g (lit 1) (Loop.world h)))) in Hcb'.
      rewrite !arrow_sets in Hcb'. by injection Hcb' as ->.
    + exists a. rewrite Hl, list_lookup_alter_ne by done.
      repeat (split; [done |]). intros Fa.
      rewrite (last_set_cons id id' _ h _ Hs), decide_False by done. auto.
Qed.

Lemma delivers_tick id' now h :
  governed h → delivers id f from to e h →
  delivers id f from to e (Loop.tick id' now h).
Proof.
  intros Hg Hd. unfold Loop.tick.
  destruct (Loop.animations h !! id') as [a'|] eqn:Ea'; [| done].
  destruct (now >=? Loop.end_ a')%js; [by apply delivers_endAnimation |].
  destruct (Loop.flushed a') eqn:Fa'; [done |].
  destruct Hd as (a & Ha & Hcb & He & Hv).
  destruct (arrows_own h Hg id' a' Ea') as (f' & from' & to' & Hcb').
  simpl. set (p := Loop.easeFunction a' _).
  destruct (decide (id' = id)) as [-> | Hne].
  - assert (a' = a) as -> by congruence.
    eexists. simpl. rewrite list_lookup_alter_eq, Ha. simpl.
    split; [reflexivity |]. simpl. repeat (split; [done |]).
    intros Fa. congruence.
  - exists a. simpl. rewrite list_lookup_alter_ne by done.
    repeat (split; [done |]). intros Fa.
    erewrite last_set_cons; [| simpl; rewrite Hcb'; apply arrow_sets].
    rewrite decide_False by done. auto.
Qed.

Lemma delivers_fire t h :
  governed h → delivers id f from to e h → delivers id f from to e (Loop.fire t h).
Proof.
  intros Hg Hd. destruct t as [k | k now]; simpl.
  - destruct (Loop.timeouts h !! k); [| done].
    apply delivers_endAnimation; [by apply (governed_same h) |].
    by apply (delivers_same h).
  - destruct (Loop.frames h !! k); [| done].
    apply delivers_tick; [by apply (governed_same h) |].
    by apply (delivers_same h).
Qed.

Lemma delivers_start f' from' to' duration now h :
  delivers id f from to e h →
  delivers id f from to e (start f' from' to' duration now h).2.
Proof.
  intros (a & Ha & Hcb & He & Hv). exists a.
  split; [by apply start_lookup |]. repeat (split; [done |]).
  intros Fa. rewrite (last_set_same id h); [auto |].
  apply start_page.
Qed.

Lemma delivers_step h (ev : event W) :
  governed h → delivers id f from to e h → delivers id f from to e (step h ev).
Proof.
  intros Hg Hd. destruct ev; simpl.
  - apply delivers_start. unfold settle.
    destruct (cancel (controller (Loop.world h))); [by apply delivers_endAnimation | done].
  - by apply delivers_fire.
  - by apply delivers_endAnimation.
Qed.

Lemma delivers_run h (es : list (event W)) :
  governed h → delivers id f from to e h → delivers id f from to e (run h es).
Proof.
  revert h. induction es as [|ev es IH]; intros h Hg Hd; [done |].
  apply IH; [by apply governed_step | by apply delivers_step].
Qed.

End Delivers.

Lemma start_delivers (f : num → W → W) from to duration now h :
  delivers (length (Loop.animations h)) f from to (now + duration)%js
    (start f from to duration now h).2.
Proof.
  unfold delivers, start, Loop.animate. simpl.
  rewrite list_lookup_middle by done. eexists. split; [reflexivity |]. done.
Qed.

Lemma is_flushed_endAnimation id h a :
  Loop.animations h !! id = Some a →
  Loop.is_flushed id (Loop.endAnimation id h) = true.
Proof.
  intros Ea. unfold Loop.is_flushed. rewrite animations_endAnimation, Ea.
  destruct (Loop.flushed a) eqn:Fa.
  - by rewrite Ea.
  - by rewrite list_lookup_alter_eq, Ea.
Qed.


(** After any history, let [animate(setFn, from, to, duration)] be called,
    and let anything follow.  Once the animation has finished, the latest
    value [setFn] was given is [from + (to - from) * 1].  Until then its
    fallback timeout is pending; and the timeout firing, a tick at or after
    the end time, or a call of the returned function, whichever comes
    first, finishes it. *)
Lemma final_call_delivered (ease : num → num) (w : W) (pre post : list (event W))
    (setFn : num → W → W) (from to duration now : num) :
  let h := run (initial ease w) pre in
  let id := (animate setFn from to duration now h).1 in
  let h' := run (animate setFn from to duration now h).2 post in
  (Loop.is_flushed id h' = true →
     last_set id h' = Some (interpolate from to (lit 1))) ∧
  (Loop.is_flushed id h' = false → Loop.timeouts h' !! id = Some id) ∧
  Loop.is_flushed id (step h' (Fire (Loop.Timeout id))) = true ∧
  (∀ k now', Loop.frames h' !! k = Some id → (now' >=? now + duration)%js = true →
     Loop.is_flushed id (step h' (Fire (Loop.Frame k now'))) = true) ∧
  Loop.is_flushed id (step h' (Finalize id)) = true.
Proof.
  intros h id h'.
  assert (Hg : governed h) by apply governed_run, governed_initial.
  assert (Hc : Loop.consistent h) by apply consistent_run, consistent_empty.
  assert (Hg1 : governed (animate setFn from to duration now h).2)
    by (by apply governed_start, governed_settle).
  assert (Hc1 : Loop.consistent (animate setFn from to duration now h).2)
    by (by apply consistent_start, consistent_settle).
  assert (Hg' : governed h') by (by apply governed_run).
  assert (Hc' : Loop.consistent h') by (by apply consistent_run).
  assert (Hd : delivers id setFn from to (now + duration)%js h').
  { apply delivers_run; [done |]. subst id. rewrite animate_id, <- length_settle.
    apply start_delivers. }
  destruct Hd as (a & Ha & Hcb & He & Hv).
  assert (Hf : Loop.is_flushed id h' = Loop.flushed a)
    by (unfold Loop.is_flushed; by rewrite Ha).
  split; [by rewrite Hf | split; [| split; [| split]]].
  - rewrite Hf. by apply (Loop.fallback_pending h' Hc').
  - simpl. destruct (Loop.timeouts h' !! id) as [id'|] eqn:Et.
    + destruct (Loop.timeout_owner h' Hc' id id' Et) as [<- _].
      by apply (is_flushed_endAnimation id _ a).
    + rewrite Hf. destruct (Loop.flushed a) eqn:Fa; [done |].
      pose proof (Loop.fallback_pending h' Hc' id a Ha Fa). congruence.
  - intros k now' Hk Hnow. simpl. rewrite Hk. unfold Loop.tick. simpl.
    rewrite Ha, He, Hnow. by apply (is_flushed_endAnimation id _ a).
  - simpl. by apply (is_flushed_endAnimation id _ a).
Qed.

(** C8.  In every state the controller can be in between callbacks,
    [animatingTo] is null exactly when [cancel] is null, and [isAnimating]
    holds exactly when [cancel] is the function that ends an animation still
    in flight.  Both fields are null at first, [animate] sets both, and the
    callback of fraction [1] clears both. *)
Theorem controller_fields_coupled (ease : num → num) (w : W) (es : list (event W)) :
  let h := run (initial ease w) es in
  let c := controller (Loop.world h) in
  coupled c ∧
  (isAnimating c = true ↔ ∃ id, cancel c = Some id ∧ Loop.in_flight id h) ∧
  (cancel (create ease) = None ∧ animatingTo (create ease) = None) ∧
  (∀ setFn from to duration now,
     let r := animate setFn from to duration now h in
     cancel (controller (Loop.world r.2)) = Some r.1 ∧
     animatingTo (controller (Loop.world r.2)) = Some to) ∧
  (∀ id setFn from to e,
     cancel (controller (arrow id setFn from to (lit 1) e)) = None ∧
     animatingTo (controller (arrow id setFn from to (lit 1) e)) = None).
Proof.
  intros h c.
  assert (Hg : governed h) by apply governed_run, governed_initial.
  pose proof (fields_coupled h Hg) as Hcoupled. fold c in Hcoupled.
  split; [done | split; [| split; [done | split]]].
  - unfold isAnimating. split.
    + intros Ha. destruct (cancel c) as [id|] eqn:Hc.
      * exists id. split; [done |].
        destruct (cancel_tracks h Hg id Hc) as (f & from & to & _ & _ & a & T).
        exists a. tauto.
      * apply Hcoupled in Hc. by rewrite Hc in Ha.
    + intros (id & Hc & _). destruct (animatingTo c) eqn:Ha; [done |].
      apply Hcoupled in Ha. congruence.
  - intros setFn from to duration now r.
    destruct (animate_started setFn from to duration now h) as [(Hc & Ha & _) _].
    done.
  - intros. apply arrow_final_controller.
Qed.

(** C3 (amended).  When [animate] is called while the controller tracks an
    animation with target [T], that animation is ended first: its [setFn]
    is given [from + (T - from) * 1], with the [from] of that animation,
    its fallback timeout is cleared, and it is finished, so that it makes
    no further call.  The new animation is then started from the state so
    reached, within the same call, and the ended animation's [setFn] is not
    called again by it. *)
Theorem restart_settles_tracked (ease : num → num) (w : W) (es : list (event W))
    (setFn : num → W → W) (from to duration now : num) (old : nat) :
  let h := run (initial ease w) es in
  cancel (controller (Loop.world h)) = Some old →
  ∃ setFn_old from_old T,
    tracks old setFn_old from_old T h ∧
    let h1 := settle h in
    let r := animate setFn from to duration now h in
    h1 = Loop.endAnimation old h ∧
    page (Loop.world h1) =
      setFn_old (interpolate from_old T (lit 1)) (page (Loop.world h)) ∧
    sets (Loop.world h1) =
      (old, interpolate from_old T (lit 1)) :: sets (Loop.world h) ∧
    Loop.is_flushed old h1 = true ∧
    (∀ k, Loop.timeouts h1 !! k = Some old → False) ∧
    r = start setFn from to duration now h1 ∧
    started setFn from to duration now r.1 r.2 ∧
    page (Loop.world r.2) = page (Loop.world h1) ∧
    sets (Loop.world r.2) = sets (Loop.world h1) ∧
    Loop.is_flushed old r.2 = true.
Proof.
  intros h Hold.
  assert (Hg : governed h) by apply governed_run, governed_initial.
  assert (Hc : Loop.consistent h) by apply consistent_run, consistent_empty.
  destruct (cancel_tracks h Hg old Hold) as (f' & from' & T & Htracks).
  exists f', from', T. split; [done |].
  destruct Htracks as (_ & _ & a & Ea & Hcb & Fa).
  assert (Hsettle : settle h = Loop.endAnimation old h)
    by (unfold settle; by rewrite Hold).
  pose proof (world_endAnimation old h a Ea Fa) as Hw. rewrite Hcb in Hw.
  cbv zeta. unfold animate. rewrite Hsettle.
  split; [done |]. split; [by rewrite Hw, arrow_page |].
  split; [by rewrite Hw, arrow_sets |].
  split; [by apply (is_flushed_endAnimation old h a) |].
  split.
  { intros k Hk.
    assert (Hc1 : Loop.consistent (Loop.endAnimation old h))
      by (by apply consistent_endAnimation).
    destruct (Loop.timeout_owner _ Hc1 k old Hk) as [-> _].
    rewrite (endAnimation_in_flight old h a Ea Fa) in Hk.
    rewrite (Loop.marker_is_own h Hc old a Ea) in Hk.
    destruct (Loop.tickMarker a); simpl in Hk; by rewrite lookup_delete_eq in Hk. }
  split; [done |]. split; [apply start_started |].
  split; [apply start_page |]. split; [apply start_page |].
  pose proof (is_flushed_endAnimation old h a Ea) as Hfl.
  unfold Loop.is_flushed in *.
  destruct (Loop.animations (Loop.endAnimation old h) !! old) as [a1|] eqn:E1;
    [| done].
  by rewrite (start_lookup _ _ _ _ _ _ old a1 E1).
Qed.

(** *** One animation at a time, for regular runs *)

Lemma in_flight_endAnimation id id' h :
  Loop.in_flight id (Loop.endAnimation id' h) → Loop.in_flight id h ∧ id ≠ id'.
Proof.
  intros (a & Ha & Fa). rewrite animations_endAnimation in Ha.
  destruct (Loop.animations h !! id') as [a'|] eqn:Ea'.
  - destruct (Loop.flushed a') eqn:Fa'.
    + split; [by exists a | congruence].
    + rewrite list_lookup_alter in Ha. case_decide as Hid.
      * subst id'. rewrite Ea' in Ha. injection Ha as <-. done.
      * split; [by exists a | done].
  - split; [by exists a | congruence].
Qed.

Lemma single_flight_endAnimation id h :
  governed h → single_flight h → single_flight (Loop.endAnimation id h).
Proof.
  intros Hg Hs id' Hin.
  destruct (in_flight_endAnimation id' id h Hin) as [Hin' Hne].
  pose proof (Hs id' Hin') as Hc.
  destruct (Loop.animations h !! id) as [a|] eqn:Ea;
    [| by rewrite endAnimation_absent].
  destruct (Loop.flushed a) eqn:Fa;
    [by rewrite (world_endAnimation_flushed id h a) |].
  specialize (Hs id (ex_intro _ a (conj Ea Fa))). congruence.
Qed.

Lemma single_flight_same h h' :
  Loop.animations h' = Loop.animations h → Loop.world h' = Loop.world h →
  single_flight h → single_flight h'.
Proof.
  intros Ea Ew Hs id. unfold Loop.in_flight. rewrite Ea, Ew. apply Hs.
Qed.

Lemma single_flight_step h (ev : event W) :
  governed h → unit_before_end h ev = false →
  single_flight h → single_flight (step h ev).
Proof.
  intros Hg Hreg Hs. destruct ev as [f from to duration now | [k | k now] | id].
  - change (single_flight (start f from to duration now (settle h)).2).
    assert (Hs1 : single_flight (settle h)).
    { unfold settle. destruct (cancel (controller (Loop.world h)));
        [by apply single_flight_endAnimation | done]. }
    destruct (settle_idle h Hg) as [Hidle _].
    destruct (start_started f from to duration now (settle h)) as [(Hc & _) _].
    intros id (a & Ha & Fa). rewrite Hc. f_equal.
    unfold start, Loop.animate in Ha. simpl in Ha.
    apply lookup_snoc_Some in Ha as [[_ Ha] | [-> _]]; [| done].
    specialize (Hs1 id (ex_intro _ a (conj Ha Fa))). congruence.
  - simpl. destruct (Loop.timeouts h !! k); [| done].
    apply single_flight_endAnimation; [by apply (governed_same h) |].
    by apply (single_flight_same h).
  - simpl in *. destruct (Loop.frames h !! k) as [id|]; [| done].
    unfold Loop.tick. simpl.
    destruct (Loop.animations h !! id) as [a|] eqn:Ea;
      [| by apply (single_flight_same h)].
    destruct (now >=? Loop.end_ a)%js.
    { apply single_flight_endAnimation; [by apply (governed_same h) |].
      by apply (single_flight_same h). }
    destruct (Loop.flushed a) eqn:Fa; [by apply (single_flight_same h) |].
    simpl in Hreg.
    destruct (arrows_own h Hg id a Ea) as (f & from & to & Hcb).
    intros id' (a' & Ha' & Fa'). simpl in *.
    rewrite Hcb, arrow_controller, Hreg. apply Hs.
    rewrite list_lookup_alter in Ha'. case_decide as Hid.
    + subst id'. by exists a.
    + by exists a'.
  - simpl. by apply single_flight_endAnimation.
Qed.

Lemma single_flight_run h (es : list (event W)) :
  governed h → regular h es → single_flight h → single_flight (run h es).
Proof.
  revert h. induction es as [|ev es IH]; intros h Hg Hreg Hs; [done |].
  destruct Hreg as [Hev Hreg].
  apply IH; [by apply governed_step | done | by apply single_flight_step].
Qed.

(** As long as no tick yields the fraction [1] before the end time, at most
    one animation is in flight, and it is the tracked one. *)
Lemma single_flight_regular (ease : num → num) (w : W) (es : list (event W)) :
  regular (initial ease w) es → single_flight (run (initial ease w) es).
Proof.
  intros Hreg. apply single_flight_run; [apply governed_initial | done |].
  intros id (a & Ha & _). by destruct id.
Qed.

End ControllerFacts.

(** ** The click handlers *)

Section ClickFacts.
Context {N : Number}.
Import Slider.

Lemma indexOf_range (l : list nat) (x : nat) : (-1 ≤ indexOf l x)%Z.
Proof.
  induction l as [|y l IH]; simpl; [lia |].
  case_decide; [lia |]. destruct (indexOf l x <? 0)%Z eqn:E; lia.
Qed.

Lemma indexOf_lookup (l : list nat) (i x : nat) :
  NoDup l → l !! i = Some x → indexOf l x = Z.of_nat i.
Proof.
  revert i. induction l as [|y l IH]; intros i Hnd Hi; [done |].
  apply NoDup_cons in Hnd as [Hy Hnd]. simpl.
  destruct i as [|i]; simpl in Hi.
  - injection Hi as ->. by rewrite decide_True.
  - rewrite decide_False.
    + rewrite (IH i Hnd Hi).
      destruct (Z.of_nat i <? 0)%Z eqn:E; [apply Z.ltb_lt in E |]; lia.
    + intros ->. apply Hy. by eapply list_elem_of_lookup_2.
Qed.

Lemma at_index_next (l : list nat) (i : nat) :
  at_index l (Z.of_nat i + 1) = l !! S i.
Proof.
  unfold at_index. destruct (Z.of_nat i + 1 <? 0)%Z eqn:E; [apply Z.ltb_lt in E; lia |].
  f_equal. lia.
Qed.

Lemma at_index_previous (l : list nat) (i : nat) :
  at_index l (Z.of_nat i - 1) = match i with O => None | S j => l !! j end.
Proof.
  unfold at_index. destruct i as [|j]; [done |].
  destruct (Z.of_nat (S j) - 1 <? 0)%Z eqn:E; [apply Z.ltb_lt in E; lia |].
  f_equal. lia.
Qed.

Lemma nextElement_at (sl : Slider) (s : State) (cur i : nat) :
  NoDup (slides sl) → currentElement sl s = Normal cur → slides sl !! i = Some cur →
  nextElement sl s = Normal (slides sl !! S i) ∧
  previousElement sl s =
    Normal (match i with O => None | S j => slides sl !! j end).
Proof.
  intros Hnd Hcur Hi. unfold nextElement, previousElement. rewrite Hcur. simpl.
  rewrite (indexOf_lookup _ i cur Hnd Hi), at_index_next, at_index_previous. done.
Qed.

Lemma last_lookup_end (l : list nat) (x : nat) :
  last l = Some x → ∃ i, l !! i = Some x ∧ l !! S i = None.
Proof.
  intros Hl. exists (pred (length l)).
  rewrite last_lookup in Hl. split; [done |].
  apply lookup_ge_None. destruct l; simpl in *; [done | lia].
Qed.

(** C4.  When the current slide is the last slide, a click on "next"
    changes nothing: the handler returns with the state as it was, and no
    animation is started.  When the current slide is the first slide, the
    same holds of a click on "previous". *)
Theorem click_at_end_is_noop (sl : Slider) (now : num) (s : State) (cur : nat) :
  NoDup (slides sl) → currentElement sl s = Normal cur →
  (last (slides sl) = Some cur → onNextClick sl now s = Normal s) ∧
  (head (slides sl) = Some cur → onPreviusClick sl now s = Normal s).
Proof.
  intros Hnd Hcur. split.
  - intros Hlast. destruct (last_lookup_end _ _ Hlast) as (i & Hi & Hnone).
    destruct (nextElement_at sl s cur i Hnd Hcur Hi) as [Hnext _].
    unfold onNextClick. rewrite Hnext, Hnone. done.
  - intros Hhead. assert (Hi : slides sl !! 0 = Some cur)
      by (by destruct (slides sl)).
    destruct (nextElement_at sl s cur 0 Hnd Hcur Hi) as [_ Hprev].
    unfold onPreviusClick. rewrite Hprev. done.
Qed.

(** C7.  When the slide after the current one exists, a click on "next"
    starts an animation of the container's [scrollLeft], from the value it
    has at the click to the left offset of that slide, over 1000
    milliseconds; a click on "previous" does the same towards the slide
    before the current one. *)
Theorem click_scrolls_to_adjacent (sl : Slider) (now : num) (s : State) (cur i : nat) :
  NoDup (slides sl) → currentElement sl s = Normal cur → slides sl !! i = Some cur →
  (∀ adj, slides sl !! S i = Some adj →
     ∃ s', onNextClick sl now s = Normal s' ∧
           Controller.started assign_scrollLeft (scrollLeft (slider s))
             (offset_left s adj) (lit 1000) now (length (Loop.animations s)) s') ∧
  (∀ j adj, i = S j → slides sl !! j = Some adj →
     ∃ s', onPreviusClick sl now s = Normal s' ∧
           Controller.started assign_scrollLeft (scrollLeft (slider s))
             (offset_left s adj) (lit 1000) now (length (Loop.animations s)) s').
Proof.
  intros Hnd Hcur Hi.
  destruct (nextElement_at sl s cur i Hnd Hcur Hi) as [Hnext Hprev].
  split.
  - intros adj Hadj. unfold onNextClick. rewrite Hnext, Hadj. simpl.
    eexists. split; [reflexivity |].
    unfold scrollTo.
    rewrite <- (animate_id assign_scrollLeft (scrollLeft (slider s))
                  (offset_left s adj) transitionDuration now s).
    apply animate_started.
  - intros j adj -> Hadj. unfold onPreviusClick. rewrite Hprev, Hadj. simpl.
    eexists. split; [reflexivity |].
    unfold scrollTo.
    rewrite <- (animate_id assign_scrollLeft (scrollLeft (slider s))
                  (offset_left s adj) transitionDuration now s).
    apply animate_started.
Qed.

End ClickFacts.

(** ** The easing function, and interpolation without rounding *)

Section EasingFacts.
#[local] Existing Instance exact.
Import Controller.
Open Scope Q_scope.

Lemma ease_low (x : Q) : x < 1 # 2 → easeInOutCubic x == 4 * x ^ 3.
Proof.
  intros Hx. unfold easeInOutCubic. simpl.
  destruct (Qle_bool (1 # 2) x) eqn:E.
  - apply Qle_bool_iff in E. lra.
  - simpl. ring.
Qed.

Lemma ease_high (x : Q) : 1 # 2 <= x → easeInOutCubic x == 1 - (-2 * x + 2) ^ 3 / 2.
Proof.
  intros Hx. unfold easeInOutCubic. simpl.
  destruct (Qle_bool (1 # 2) x) eqn:E.
  - simpl. reflexivity.
  - apply Qle_bool_iff in Hx. congruence.
Qed.

Lemma cube_le (a b : Q) : 0 <= a → a <= b → a ^ 3 <= b ^ 3.
Proof.
  intros Ha Hab. simpl.
  assert (0 <= (b - a) * (a * a + a * b + b * b)) by (apply Qmult_le_0_compat; nra).
  nra.
Qed.

Lemma ease_monotone (x y : Q) : 0 <= x → x <= y → y <= 1 → easeInOutCubic x <= easeInOutCubic y.
Proof.
  intros Hx Hxy Hy.
  destruct (Qlt_le_dec x (1 # 2)) as [Lx | Lx], (Qlt_le_dec y (1 # 2)) as [Ly | Ly].
  - rewrite (ease_low x Lx), (ease_low y Ly).
    pose proof (cube_le x y Hx Hxy) as H1.
    set (a := x ^ 3) in *. set (b := y ^ 3) in *. clearbody a b. lra.
  - rewrite (ease_low x Lx), (ease_high y Ly).
    pose proof (cube_le x (1 # 2) Hx (Qlt_le_weak _ _ Lx)) as H1.
    assert (H2 : (-2 * y + 2) ^ 3 <= 1 ^ 3) by (apply cube_le; lra).
    simpl in H1, H2 |- *.
    set (a := x * (x * x)) in *. set (b := (-2 * y + 2) * ((-2 * y + 2) * (-2 * y + 2))) in *.
    assert (H3 : (1 # 2) * ((1 # 2) * (1 # 2)) == 1 # 8) by reflexivity.
    rewrite H3 in H1. clearbody a b. change (b / 2) with (b * (1 # 2)). lra.
  - lra.
  - rewrite (ease_high x Lx), (ease_high y Ly).
    assert (H2 : (-2 * y + 2) ^ 3 <= (-2 * x + 2) ^ 3) by (apply cube_le; lra).
    set (a := (-2 * y + 2) ^ 3) in *. set (b := (-2 * x + 2) ^ 3) in *. clearbody a b.
    change (a / 2) with (a * (1 # 2)). change (b / 2) with (b * (1 # 2)). lra.
Qed.

(** Without rounding, the interpolation at fraction [1] is the target. *)
Lemma interpolate_one_exact (from to : Q) : interpolate from to (lit 1) == to.
Proof. unfold interpolate. simpl. ring. Qed.

End EasingFacts.

(** C1 (amended).  After any history, let [animate(setFn, from, to,
    duration)] be called, and let anything follow.  Once the animation has
    finished, the latest value [setFn] was given is [from + (to - from) * 1]
    as the arithmetic of numbers computes it; until then the fallback
    timeout is pending, and the timeout firing, a tick at or after the end
    time, or a call of the returned function, whichever comes first,
    finishes the animation.  In exact arithmetic that value is [to]. *)
Theorem final_call_value :
  (∀ (N : Number) (W : Type) (ease : num → num) (w : W)
     (pre post : list (Controller.event W))
     (setFn : num → W → W) (from to duration now : num),
     let h := Controller.run (Controller.initial ease w) pre in
     let id := (Controller.animate setFn from to duration now h).1 in
     let h' := Controller.run (Controller.animate setFn from to duration now h).2 post in
     (Loop.is_flushed id h' = true →
        Controller.last_set id h' = Some (Controller.interpolate from to (lit 1))) ∧
     (Loop.is_flushed id h' = false → Loop.timeouts h' !! id = Some id) ∧
     Loop.is_flushed id (Controller.step h' (Controller.Fire (Loop.Timeout id))) = true ∧
     (∀ k now', Loop.frames h' !! k = Some id → (now' >=? now + duration)%js = true →
        Loop.is_flushed id (Controller.step h' (Controller.Fire (Loop.Frame k now'))) = true) ∧
     Loop.is_flushed id (Controller.step h' (Controller.Finalize id)) = true) ∧
  (∀ from to : Q,
     (Controller.interpolate (N := exact) from to (lit 1) == to)%Q).
Proof.
  split.
  - intros. apply final_call_delivered.
  - apply interpolate_one_exact.
Qed.


(** ** Runs over doubles *)

Section DoublesFacts.
#[local] Existing Instance binary64.
Import Controller Doubles.

(** C1, as stated, fails on doubles: [animate(keep, 1e16, 1, 1000)] ends,
    at its fallback timeout, with a call of [keep] whose value is
    [1e16 + (1 - 1e16) * 1], which is [0] and not the target [1]. *)
Lemma final_call_value_rounds :
  let h := run idle (far_apart ++ [Fire (Loop.Timeout 0)]) in
  Loop.is_flushed 0 h = true ∧
  last_set 0 h = Some 0%float ∧
  (0%float ==? 1%float)%js = false.
Proof. vm_compute. done. Qed.

(** C3, as stated, fails on doubles: while the animation towards [1] is
    tracked, a second [animate] gives its [setFn] the value [0], not [1];
    and the first frame request of the ended animation, whose handle was
    not kept, is still pending afterwards. *)
Lemma restart_rounds_and_leaves_frame :
  let h := run idle far_apart in
  let r := animate keep 0%float 5%float 1000%float 10%float h in
  cancel (controller (Loop.world h)) = Some 0 ∧
  animatingTo (controller (Loop.world h)) = Some 1%float ∧
  sets (Loop.world r.2) = [(0, 0%float)] ∧
  Loop.frames r.2 !! 0 = Some 0.
Proof. vm_compute. done. Qed.

(** C6 fails on this run.  A tick one millisecond before the end of an
    animation of [1e6] milliseconds gets the eased fraction
    [easeInOutCubic 0.999999], which is [1] in doubles; the arrow function
    takes it for the end and clears [cancel] and [animatingTo] while the
    loop goes on.  The next [animate] then finds nothing to settle, and two
    animations are in flight.  When the fallback timeout of the first one
    fires, its final call clears the fields of the second, which is still in
    flight. *)
Lemma two_animations_in_flight :
  let h := run idle (long_run ++ [Animate keep 0%float 50%float 1000%float 999999%float]) in
  easeInOutCubic (999999 / 1000000)%float = 1%float ∧
  Loop.in_flight 0 h ∧ Loop.in_flight 1 h ∧
  cancel (controller (Loop.world h)) = Some 1 ∧
  let h' := step h (Fire (Loop.Timeout 0)) in
  Loop.in_flight 1 h' ∧
  cancel (controller (Loop.world h')) = None ∧
  animatingTo (controller (Loop.world h')) = None.
Proof.
  cbv zeta. split; [by vm_compute |].
  split; [eexists; by vm_compute |]. split; [eexists; by vm_compute |].
  split; [by vm_compute |]. split; [eexists; by vm_compute |].
  by vm_compute.
Qed.


(** With the easing [brisk] the callback is given the fraction [1] by the
    frame at [600] and again by the frame at [700], while the animation has
    not finished, and once more by the timeout. *)
Lemma final_fraction_repeats :
  Loop.percent <$> Loop.calls (Loop.exec (Loop.empty tt) (take 3 eager))
    = [1%float; 1%float] ∧
  Loop.is_flushed 0 (Loop.exec (Loop.empty tt) (take 3 eager)) = false ∧
  Loop.percent <$> Loop.calls (Loop.exec (Loop.empty tt) eager)
    = [1%float; 1%float; 1%float].
Proof. vm_compute. repeat split. Qed.

(** The tracked animation of [far_apart] is finished by the settling step
    of a second [animate]. *)
Lemma restart_settles_tracked_witness :
  Loop.is_flushed 0 (settle (run idle far_apart)) = true.
Proof.
  destruct (restart_settles_tracked (N := binary64) easeInOutCubic tt far_apart keep
              0%float 5%float 1000%float 10%float 0 eq_refl)
    as (f & from & T & _ & _ & _ & _ & H & _).
  exact H.
Defined.

(** Scrolled to the third of three slides, "next" changes nothing; scrolled
    to the first, "previous" changes nothing. *)
Lemma click_at_end_is_noop_witness :
  Slider.onNextClick three 0%float (scrolled 600%float) = Normal (scrolled 600%float) ∧
  Slider.onPreviusClick three 0%float (scrolled 0%float) = Normal (scrolled 0%float).
Proof.
  assert (Hnd : NoDup (Slider.slides three))
    by (apply (bool_decide_unpack _); reflexivity).
  split.
  - apply (click_at_end_is_noop (N := binary64) three 0%float (scrolled 600%float) 2 Hnd);
      reflexivity.
  - apply (click_at_end_is_noop (N := binary64) three 0%float (scrolled 0%float) 0 Hnd);
      reflexivity.
Defined.

(** Scrolled to the first of three slides, "next" starts the animation
    from [0] to [300] over [1000] milliseconds. *)
Lemma click_scrolls_to_adjacent_witness :
  ∃ s', Slider.onNextClick three 0%float (scrolled 0%float) = Normal s' ∧
        started Slider.assign_scrollLeft 0%float 300%float 1000%float 0%float 0 s'.
Proof.
  assert (Hnd : NoDup (Slider.slides three))
    by (apply (bool_decide_unpack _); reflexivity).
  apply (proj1 (click_scrolls_to_adjacent (N := binary64) three 0%float
                  (scrolled 0%float) 0 0 Hnd eq_refl eq_refl) 1).
  reflexivity.
Defined.

(** With one-second animations no tick gets the fraction [1] early, and the
    run keeps one animation in flight at most. *)
Lemma single_flight_regular_witness : single_flight (run idle two_clicks).
Proof.
  apply (single_flight_regular (N := binary64) easeInOutCubic tt two_clicks).
  vm_compute. done.
Defined.

(** Without an element, [getScroll] reads the document, and throws when
    the page is not scrolled and [document.body] is null. *)
Lemma getScroll_without_body :
  Dom.getScroll
    {| Dom.pageYOffset := Dom.number 0%float; Dom.pageXOffset := Dom.number 0%float;
       Dom.documentElement := Some (slide_at 0); Dom.body := None |} None
  = Throw TypeError.
Proof. reflexivity. Qed.

End DoublesFacts.

(** ** [getScroll] without an element *)

Section PageScrollFacts.
Context {N : Number}.
Import Dom.

Lemma first_truthy_not_NaN (vs : list value) : isNaN (first_truthy vs) = false.
Proof.
  induction vs as [|v vs IH]; simpl; [apply isNaN_zero |].
  destruct (truthy v); [apply or_zero_coerced | exact IH].
Qed.

Lemma first_truthy_falsy (v : value) (vs : list value) :
  truthy v = false → first_truthy (v :: vs) = first_truthy vs.
Proof. intros E. simpl. by rewrite E. Qed.

Lemma first_truthy_last (v : value) : first_truthy [v] = or_zero v.
Proof.
  simpl. destruct (truthy v) eqn:E; [done |].
  symmetry. by apply or_zero_coerced.
Qed.

(** X2.  Without an element, [getScroll] reads the page.  It throws a
    TypeError when the document has no root element, and when it has no
    body and one of the four values falls through to the body; otherwise it
    returns, each field being the first truthy value among the window's,
    the root element's and the body's, or [0], and never NaN. *)
Theorem getScroll_page (g : Globals) :
  match documentElement g with
  | None => getScroll g None = Throw TypeError
  | Some root =>
      match body g with
      | Some _ => getScroll g None = Normal (page_box g root)
      | None =>
          getScroll g None =
            if reads_body g root then Throw TypeError else Normal (page_box g root)
      end
  end ∧
  ∀ vs, isNaN (first_truthy vs) = false.
Proof.
  split; [| apply first_truthy_not_NaN].
  destruct g as [py px [root|] bd]; cbn [documentElement body];
    [| unfold getScroll, window_or_zero, document_or_zero; simpl;
       by destruct (truthy py), (truthy px)].
  unfold page_box, reads_body, body_property.
  cbn [documentElement body pageYOffset pageXOffset].
  destruct bd as [b|].
  - unfold getScroll, window_or_zero, document_or_zero.
    cbn [documentElement body pageYOffset pageXOffset].
    rewrite <- !(first_truthy_last (_ b)).
    destruct (truthy py) eqn:E1, (truthy (scrollTop root)) eqn:E2,
      (truthy px) eqn:E3, (truthy (scrollLeft root)) eqn:E4,
      (truthy (scrollHeight root)) eqn:E5, (truthy (scrollWidth root)) eqn:E6;
      simpl; rewrite ?E1, ?E2, ?E3, ?E4, ?E5, ?E6; reflexivity.
  - unfold getScroll, window_or_zero, document_or_zero.
    cbn [documentElement body pageYOffset pageXOffset].
    destruct (truthy py) eqn:E1, (truthy (scrollTop root)) eqn:E2,
      (truthy px) eqn:E3, (truthy (scrollLeft root)) eqn:E4,
      (truthy (scrollHeight root)) eqn:E5, (truthy (scrollWidth root)) eqn:E6;
      simpl; rewrite ?E1, ?E2, ?E3, ?E4, ?E5, ?E6; reflexivity.
Qed.

End PageScrollFacts.

(** ** [position], without rounding *)

Section PositionFacts.
#[local] Existing Instance exact.
Import Rect.
Open Scope Q_scope.

(** X3.  [position] throws (a TypeError) only when it is given no reference
    element and the document has no body; without a reference element it
    measures against the body.  The result keeps the element's width and
    height.  In exact arithmetic the four offsets of an element against
    itself are [0]; offsets add up along a chain of reference elements; and
    the left offset, the element's extent and the right offset add up to
    the extent of the reference element, and so from top to bottom. *)
Theorem position_offsets (body : option DOMRect) (a b c : DOMRect) :
  position body a None =
    match body with
    | Some r => position body a (Some r)
    | None => Throw TypeError
    end ∧
  ∃ ab bc ac aa,
    position body a (Some b) = Normal ab ∧
    position body b (Some c) = Normal bc ∧
    position body a (Some c) = Normal ac ∧
    position body a (Some a) = Normal aa ∧
    width ab = width a ∧ height ab = height a ∧
    (top aa == 0 ∧ left aa == 0 ∧ bottom aa == 0 ∧ right aa == 0) ∧
    (top ac == top ab + top bc ∧ left ac == left ab + left bc ∧
     bottom ac == bottom ab + bottom bc ∧ right ac == right ab + right bc) ∧
    left ab + (right a - left a) + right ab == right b - left b ∧
    top ab + (bottom a - top a) + bottom ab == bottom b - top b.
Proof.
  split; [by destruct body |].
  do 4 eexists. repeat (split; [reflexivity |]).
  simpl. repeat split; ring.
Qed.

End PositionFacts.

(** ** The easing curve stays within bounds *)

Section EasingRange.
#[local] Existing Instance exact.
Import Controller.
Open Scope Q_scope.

Lemma ease_symmetric (x : Q) : easeInOutCubic (1 - x) == 1 - easeInOutCubic x.
Proof.
  destruct (Qlt_le_dec x (1 # 2)) as [Lx | Lx].
  - rewrite (ease_low x Lx), (ease_high (1 - x)) by lra.
    simpl. change (?a / 2) with (a * (1 # 2)). ring.
  - destruct (Qlt_le_dec (1 # 2) x) as [Hx | Hx].
    + rewrite (ease_high x Lx), (ease_low (1 - x)) by lra.
      simpl. change (?a / 2) with (a * (1 # 2)). ring.
    + assert (E : x == 1 # 2) by lra.
      rewrite (ease_high x Lx), (ease_high (1 - x)) by lra.
      simpl. change (?a / 2) with (a * (1 # 2)).
      rewrite E. reflexivity.
Qed.

(** X4.  In exact arithmetic, for a fraction [x] of [[0, 1]] the eased fraction
    is in [[0, 1]] too, the curve is symmetric about its middle,
    [f (1 - x) = 1 - f x], and the interpolated value lies between [from]
    and [to]: an animation does not overshoot. *)
Theorem ease_within_bounds (x from to : Q) :
  0 <= x → x <= 1 →
  (0 <= easeInOutCubic x ∧ easeInOutCubic x <= 1) ∧
  easeInOutCubic (1 - x) == 1 - easeInOutCubic x ∧
  (from <= to →
     from <= interpolate from to (easeInOutCubic x) ∧
     interpolate from to (easeInOutCubic x) <= to) ∧
  (to <= from →
     to <= interpolate from to (easeInOutCubic x) ∧
     interpolate from to (easeInOutCubic x) <= from).
Proof.
  intros H0 H1.
  assert (Hlo : 0 <= easeInOutCubic x).
  { pose proof (ease_monotone 0 x) as H. assert (E : easeInOutCubic 0 == 0) by reflexivity.
    rewrite E in H. apply H; lra. }
  assert (Hhi : easeInOutCubic x <= 1).
  { pose proof (ease_monotone x 1) as H. assert (E : easeInOutCubic 1 == 1) by reflexivity.
    rewrite E in H. apply H; lra. }
  split; [done |]. split; [apply ease_symmetric |].
  set (p := easeInOutCubic (N := exact) x) in *. clearbody p.
  unfold interpolate. simpl.
  split; intros Hft; split; nra.
Qed.

(** A quarter of the way through, the eased fraction is within bounds. *)
Lemma ease_within_bounds_witness :
  0 <= easeInOutCubic (1 # 4) ∧ easeInOutCubic (1 # 4) <= 1.
Proof.
  refine (proj1 (ease_within_bounds (1 # 4) 0 300 _ _)); lra.
Defined.

End EasingRange.

(** ** The timers of the loop *)

Section TimerFacts.
Context {N : Number} {World : Type}.
Import Loop.
Implicit Types (h : Host World) (a : Animation World).

Lemma animations_after_end id h :
  animations (endAnimation id h) =
    match animations h !! id with
    | Some a => if flushed a then animations h
                else alter set_flushed id (animations h)
    | None => animations h
    end.
Proof.
  unfold endAnimation. destruct (animations h !! id) as [a|]; [| done].
  destruct (flushed a), (tickMarker a); done.
Qed.

Lemma tidy_empty (w : World) : tidy (empty w).
Proof. split; simpl; intros; try done; by destruct id. Qed.

Lemma tidy_same h h' :
  animations h' = animations h → timeouts h' = timeouts h →
  frames h' = frames h → next_frame h' = next_frame h →
  tidy h → tidy h'.
Proof.
  intros Ea Et Ef En [H1 H2 H3 H4 H5 H6 H7].
  split; rewrite ?Ea, ?Et, ?Ef, ?En; done.
Qed.

Lemma tidy_begun a h h' :
  consistent h → tidy h →
  tickMarker a = None → flushed a = false →
  animations h' = animations h ++ [a] →
  timeouts h' = <[length (animations h) := length (animations h)]> (timeouts h) →
  frames h' = <[next_frame h := length (animations h)]> (frames h) →
  next_frame h' = S (next_frame h) →
  tidy h'.
Proof.
  intros Hc [H1 H2 H3 H4 H5 H6 H7] Ma Fa Ea Et Ef En.
  assert (Hold : ∀ k, frames h !! k = Some (length (animations h)) → False).
  { intros k Hk. destruct (H1 k _ Hk) as [_ [x Hx]].
    apply lookup_lt_Some in Hx. lia. }
  split; rewrite ?Ea, ?Et, ?Ef, ?En.
  - intros k id [[<- <-] | [Hne Hk]]%lookup_insert_Some.
    + split; [lia |]. rewrite list_lookup_middle by done. by eexists.
    + destruct (H1 k id Hk) as [Hlt [x Hx]]. split; [lia |].
      exists x. by apply lookup_app_l_Some.
  - intros id a' m [[_ Hl] | [-> <-]]%lookup_snoc_Some Hm; [| congruence].
    destruct (H2 id a' m Hl Hm) as [Hlt Hown]. split; [lia |].
    intros id'. rewrite lookup_insert_ne by lia. apply Hown.
  - intros id k k' [[<- <-] | [Hne Hk]]%lookup_insert_Some
      [[<- E] | [Hne' Hk']]%lookup_insert_Some; try done.
    + by destruct (Hold k' Hk').
    + subst id. by destruct (Hold k Hk).
    + by eapply H3.
  - intros id a' m k [[_ Hl] | [-> <-]]%lookup_snoc_Some Hm; [| congruence].
    intros [[<- <-] | [Hne Hk]]%lookup_insert_Some.
    + apply lookup_lt_Some in Hl. lia.
    + by eapply H4.
  - intros id a' [[Hlt Hl] | [-> <-]]%lookup_snoc_Some Fa'.
    + destruct (H5 id a' Hl Fa') as [k Hk]. exists k.
      rewrite lookup_insert_ne; [done |].
      intros <-. destruct (H1 _ _ Hk). lia.
    + eexists. apply lookup_insert_eq.
  - intros id a' [[Hlt Hl] | [-> <-]]%lookup_snoc_Some Fa'; [| congruence].
    rewrite lookup_insert_ne by lia. by eapply H6.
  - intros id a' m [[Hlt Hl] | [-> <-]]%lookup_snoc_Some Fa' Hm; [| congruence].
    rewrite lookup_insert_ne; [by eapply H7 |].
    intros <-. destruct (H2 id a' _ Hl Hm). lia.
Qed.

Lemma tidy_ended id a h h' :
  consistent h → tidy h → animations h !! id = Some a →
  animations h' =
    (if flushed a then animations h else alter set_flushed id (animations h)) →
  timeouts h' = delete id (timeouts h) →
  (∀ k id', frames h' !! k = Some id' → frames h !! k = Some id') →
  (∀ k id', id' ≠ id → frames h !! k = Some id' → frames h' !! k = Some id') →
  (∀ m, tickMarker a = Some m → frames h' !! m = None) →
  next_frame h' = next_frame h →
  tidy h'.
Proof.
  intros Hc [H1 H2 H3 H4 H5 H6 H7] Ha Ea Et Hsub Hkeep Hm En.
  assert (Hlook : ∀ id' a', animations h' !! id' = Some a' →
            ∃ a0, animations h !! id' = Some a0 ∧ tickMarker a' = tickMarker a0 ∧
                  (flushed a' = false → flushed a0 = false ∧ id' ≠ id) ∧
                  (id' ≠ id → a' = a0)).
  { intros id' a'. rewrite Ea. destruct (flushed a) eqn:Fa.
    - intros Hl. exists a'. repeat split; try done. intros ->. congruence.
    - rewrite list_lookup_alter. case_decide as Hid.
      + subst id'. rewrite Ha. intros [= <-]. exists a. simpl. repeat split; done.
      + intros Hl. exists a'. repeat split; done. }
  split; rewrite ?En.
  - intros k id' Hk. destruct (H1 k id' (Hsub _ _ Hk)) as [Hlt [x Hx]].
    split; [done |]. rewrite Ea. destruct (flushed a); [by exists x |].
    rewrite list_lookup_alter. case_decide; [| by exists x].
    subst id'. rewrite Hx. by eexists.
  - intros id' a' m Hl Hmark. destruct (Hlook id' a' Hl) as (a0 & Hl0 & Em & _).
    rewrite Em in Hmark. destruct (H2 id' a0 m Hl0 Hmark) as [Hlt Hown].
    split; [done |]. intros id'' Hf. apply Hown. by apply Hsub.
  - intros id' k k' Hk Hk'. eapply H3; by apply Hsub.
  - intros id' a' m k Hl Hmark Hk. destruct (Hlook id' a' Hl) as (a0 & Hl0 & Em & _).
    rewrite Em in Hmark. eapply H4; [done | done | by apply Hsub].
  - intros id' a' Hl Fa'. destruct (Hlook id' a' Hl) as (a0 & Hl0 & _ & Hfl & _).
    destruct (Hfl Fa') as [Fa0 Hne]. destruct (H5 id' a0 Hl0 Fa0) as [k Hk].
    exists k. by apply Hkeep.
  - intros id' a' Hl Fa'. rewrite Et. destruct (decide (id' = id)) as [-> | Hne].
    + apply lookup_delete_eq.
    + rewrite lookup_delete_ne by done.
      destruct (Hlook id' a' Hl) as (a0 & Hl0 & _ & _ & Heq).
      rewrite (Heq Hne) in Fa'. by eapply H6.
  - intros id' a' m Hl Fa' Hmark. destruct (decide (id' = id)) as [-> | Hne].
    + destruct (Hlook id a' Hl) as (a0 & Hl0 & Em & _).
      assert (a0 = a) as -> by congruence. apply Hm. congruence.
    + destruct (Hlook id' a' Hl) as (a0 & Hl0 & _ & _ & Heq).
      rewrite (Heq Hne) in Fa', Hmark.
      pose proof (H7 id' a0 m Hl0 Fa' Hmark) as Hnone.
      destruct (frames h' !! m) as [x|] eqn:Ex; [| done].
      apply Hsub in Ex. congruence.
Qed.

Lemma tidy_ticked id a k h h' :
  consistent h → tidy h →
  animations h !! id = Some a → flushed a = false → frames h !! k = Some id →
  animations h' = alter (set_tickMarker (next_frame h)) id (animations h) →
  timeouts h' = timeouts h →
  frames h' = <[next_frame h := id]> (delete k (frames h)) →
  next_frame h' = S (next_frame h) →
  tidy h'.
Proof.
  intros Hc [H1 H2 H3 H4 H5 H6 H7] Ha Fa Hk Ea Et Ef En.
  assert (Hlook : ∀ id' a', animations h' !! id' = Some a' →
            (id' = id ∧ a' = set_tickMarker (next_frame h) a) ∨
            (id' ≠ id ∧ animations h !! id' = Some a')).
  { intros id' a'. rewrite Ea, list_lookup_alter. case_decide as Hid.
    - subst id'. rewrite Ha. intros [= <-]. by left.
    - intros Hl. by right. }
  assert (Hframe : ∀ k' id', frames h' !! k' = Some id' →
            (k' = next_frame h ∧ id' = id) ∨
            (k' ≠ next_frame h ∧ id' ≠ id ∧ frames h !! k' = Some id')).
  { intros k' id'. rewrite Ef.
    intros [[<- <-] | [Hne [Hnk Hl]%lookup_delete_Some]]%lookup_insert_Some;
      [by left |].
    right. split; [done |]. split; [| done].
    intros ->. apply Hnk. by eapply H3. }
  split; rewrite ?En.
  - intros k' id' Hf. destruct (Hframe k' id' Hf) as [[-> ->] | (Hne & Hid & Hl)].
    + split; [lia |]. rewrite Ea, list_lookup_alter_eq, Ha. by eexists.
    + destruct (H1 k' id' Hl) as [Hlt [x Hx]]. split; [lia |].
      rewrite Ea, list_lookup_alter_ne by done. by exists x.
  - intros id' a' m Hl Hmark. destruct (Hlook id' a' Hl) as [[-> ->] | [Hne Hl0]].
    + simpl in Hmark. injection Hmark as <-. split; [lia |].
      intros id' Hf. destruct (Hframe _ _ Hf) as [[_ ->] | (Hne & _)]; done.
    + destruct (H2 id' a' m Hl0 Hmark) as [Hlt Hown]. split; [lia |].
      intros id'' Hf. destruct (Hframe _ _ Hf) as [[-> _] | (_ & _ & Hf0)]; [lia |].
      by apply Hown.
  - intros id' k1 k2 Hf1 Hf2.
    destruct (Hframe _ _ Hf1) as [[-> ->] | (Hn1 & Hi1 & Hl1)],
      (Hframe _ _ Hf2) as [[-> E] | (Hn2 & Hi2 & Hl2)]; try done.
    by eapply H3.
  - intros id' a' m k1 Hl Hmark Hf.
    destruct (Hlook id' a' Hl) as [[-> ->] | [Hne Hl0]],
      (Hframe _ _ Hf) as [[-> E] | (Hn & Hi & Hf0)]; try done.
    + simpl in Hmark. congruence.
    + by eapply H4.
  - intros id' a' Hl Fa'. destruct (Hlook id' a' Hl) as [[-> ->] | [Hne Hl0]].
    + exists (next_frame h). rewrite Ef. apply lookup_insert_eq.
    + destruct (H5 id' a' Hl0 Fa') as [k1 Hk1]. exists k1. rewrite Ef.
      destruct (H1 _ _ Hk1) as [Hlt _].
      rewrite lookup_insert_ne by lia. rewrite lookup_delete_ne; [done |].
      intros ->. congruence.
  - intros id' a' Hl Fa'. rewrite Et.
    destruct (Hlook id' a' Hl) as [[-> ->] | [Hne Hl0]]; [simpl in Fa'; congruence |].
    by eapply H6.
  - intros id' a' m Hl Fa' Hmark.
    destruct (Hlook id' a' Hl) as [[-> ->] | [Hne Hl0]]; [simpl in Fa'; congruence |].
    destruct (H2 id' a' m Hl0 Hmark) as [Hlt _].
    rewrite Ef, lookup_insert_ne by lia.
    destruct (decide (k = m)) as [-> | Hkm]; [apply lookup_delete_eq |].
    rewrite lookup_delete_ne by done. by eapply H7.
Qed.


Lemma tidy_endAnimation id h :
  consistent h → tidy h → tidy (endAnimation id h).
Proof.
  intros Hc Ht.
  destruct (animations h !! id) as [a|] eqn:Ea;
    [| by rewrite endAnimation_absent].
  pose proof (marker_is_own h Hc id a Ea) as Hm.
  apply (tidy_ended id a h); try done.
  - rewrite animations_after_end. by rewrite Ea.
  - unfold endAnimation. rewrite Ea, Hm.
    destruct (flushed a), (tickMarker a); done.
  - intros k id'. unfold endAnimation. rewrite Ea.
    destruct (flushed a), (tickMarker a) as [m|]; simpl; try done;
      by intros [_ ?]%lookup_delete_Some.
  - intros k id' Hne Hk. unfold endAnimation. rewrite Ea.
    destruct (flushed a), (tickMarker a) as [m|] eqn:Em; simpl; try done;
      match goal with
      | E : tickMarker a = Some ?m' |- _ =>
          destruct (marker_fresh h Ht id a m' Ea E) as [_ Hown];
          rewrite lookup_delete_ne; [done |]; intros ->;
          by specialize (Hown id' Hk)
      end.
  - intros m Em. unfold endAnimation. rewrite Ea, Em.
    destruct (flushed a); simpl; apply lookup_delete_eq.
  - unfold endAnimation. rewrite Ea.
    destruct (flushed a), (tickMarker a); done.
Qed.

Lemma tidy_fire t h : consistent h → tidy h → tidy (fire t h).
Proof.
  intros Hc Ht. destruct t as [k | k now]; simpl.
  - destruct (timeouts h !! k) as [id|] eqn:Ek; [| done].
    destruct (timeout_owner h Hc k id Ek) as [-> [a Ea]].
    pose proof (marker_is_own h Hc id a Ea) as Hm.
    apply (tidy_ended id a h); try done.
    + rewrite animations_after_end. simpl. by rewrite Ea.
    + unfold endAnimation. simpl. rewrite Ea, Hm.
      destruct (flushed a), (tickMarker a); simpl; by rewrite delete_delete_eq.
    + intros k id'. unfold endAnimation. simpl. rewrite Ea.
      destruct (flushed a), (tickMarker a) as [m|]; simpl; try done;
        by intros [_ ?]%lookup_delete_Some.
    + intros k id' Hne Hk. unfold endAnimation. simpl. rewrite Ea.
      destruct (flushed a), (tickMarker a) as [m|] eqn:Em; simpl; try done;
        match goal with
        | E : tickMarker a = Some ?m' |- _ =>
            destruct (marker_fresh h Ht id a m' Ea E) as [_ Hown];
            rewrite lookup_delete_ne; [done |]; intros ->;
            by specialize (Hown id' Hk)
        end.
    + intros m Em. unfold endAnimation. simpl. rewrite Ea, Em.
      destruct (flushed a); simpl; apply lookup_delete_eq.
    + unfold endAnimation. simpl. rewrite Ea.
      destruct (flushed a), (tickMarker a); done.
  - destruct (frames h !! k) as [id|] eqn:Ek; [| done].
    destruct (frame_fresh h Ht k id Ek) as [_ [a Ea]].
    pose proof (marker_is_own h Hc id a Ea) as Hm.
    assert (Hother : ∀ k' id', id' ≠ id → frames h !! k' = Some id' →
              delete k (frames h) !! k' = Some id').
    { intros k' id' Hne Hk'. rewrite lookup_delete_ne; [done |].
      intros ->. congruence. }
    unfold tick. simpl. rewrite Ea.
    destruct (now >=? end_ a)%js.
    + apply (tidy_ended id a h); try done.
      * rewrite animations_after_end. simpl. by rewrite Ea.
      * unfold endAnimation. simpl. rewrite Ea, Hm.
        destruct (flushed a), (tickMarker a); done.
      * intros k' id'. unfold endAnimation. simpl. rewrite Ea.
        destruct (flushed a), (tickMarker a) as [m|]; simpl;
          rewrite ?lookup_delete_Some; tauto.
      * intros k' id' Hne Hk'. unfold endAnimation. simpl. rewrite Ea.
        destruct (flushed a), (tickMarker a) as [m|] eqn:Em; simpl;
          try (by apply Hother);
          match goal with
          | E : tickMarker a = Some ?m' |- _ =>
              destruct (marker_fresh h Ht id a m' Ea E) as [_ Hown];
              rewrite lookup_delete_ne; [by apply Hother |]; intros ->;
              by specialize (Hown id' Hk')
          end.
      * intros m Em. unfold endAnimation. simpl. rewrite Ea, Em.
        destruct (flushed a); simpl; apply lookup_delete_eq.
      * unfold endAnimation. simpl. rewrite Ea.
        destruct (flushed a), (tickMarker a); done.
    + destruct (flushed a) eqn:Fa.
      * apply (tidy_ended id a h); try done; simpl.
        -- by rewrite Fa.
        -- symmetry. apply delete_id. by eapply (timeout_cleared h Ht).
        -- intros k' id'. rewrite lookup_delete_Some. tauto.
        -- intros m Em. pose proof (marker_cancelled h Ht id a m Ea Fa Em) as Hn.
           destruct (delete k (frames h) !! m) eqn:E; [| done].
           apply lookup_delete_Some in E as [_ E]. congruence.
      * by apply (tidy_ticked id a k h).
Qed.

Lemma tidy_animate setCallabck easeFunction duration now h :
  consistent h → tidy h →
  tidy (animate setCallabck easeFunction duration now h).2.
Proof.
  intros Hc Ht. unfold animate, setTimeout, requestAnimationFrame. simpl.
  pose proof (timeouts_allocated h Hc) as Hn.
  eapply (tidy_begun _ h); try done; simpl; by rewrite ?Hn.
Qed.

Lemma tidy_exec (w : World) (os : list (op World)) :
  consistent (exec (empty w) os) ∧ tidy (exec (empty w) os).
Proof.
  assert (H : ∀ h, consistent h ∧ tidy h → consistent (exec h os) ∧ tidy (exec h os)).
  { induction os as [|o os IH]; intros h [Hc Ht]; [done |].
    apply IH. split; [by apply consistent_apply |].
    destruct o; simpl.
    - by apply tidy_animate.
    - by apply tidy_fire.
    - by apply tidy_endAnimation.
    - by apply (tidy_same h). }
  apply H. split; [apply consistent_empty | apply tidy_empty].
Qed.

(** X5.  However the loop is used, an animation in flight has its fallback
    timeout and exactly one frame request pending, so the loop goes on; a
    finished animation has no timeout pending and at most one frame request,
    which can only be the first one, whose handle [animate] did not keep;
    and no timer is pending for an animation that was never started. *)
Theorem timers_accounted (w : World) (os : list (op World)) (id : nat) :
  timers_of id (exec (empty w) os).
Proof.
  destruct (tidy_exec w os) as [Hc Ht]. set (h := exec (empty w) os) in *.
  unfold timers_of. destruct (animations h !! id) as [a|] eqn:Ea.
  - split; [apply (frame_unique h Ht) |].
    destruct (flushed a) eqn:Fa.
    + split.
      * intros k Hk. destruct (timeout_owner h Hc k id Hk) as [-> _].
        pose proof (timeout_cleared h Ht id a Ea Fa). congruence.
      * intros k Hk. destruct (tickMarker a) as [m|] eqn:Em; [| done].
        pose proof (marker_frame h Ht id a m k Ea Em Hk) as ->.
        pose proof (marker_cancelled h Ht id a m Ea Fa Em). congruence.
    + split; [by apply (fallback_pending h Hc id a) | by apply (frame_pending h Ht id a)].
  - split.
    + intros k Hk. destruct (timeout_owner h Hc k id Hk) as [_ [x Hx]]. congruence.
    + intros k Hk. destruct (frame_fresh h Ht k id Hk) as [_ [x Hx]]. congruence.
Qed.

End TimerFacts.

(** ** What a timer can do to the state of the program *)

Section CallbackFacts.
Context {N : Number} {World : Type}.
Import Loop.
Implicit Types (h : Host World) (a : Animation World).

(** Ending an animation or running a timer calls at most one callback,
    once. *)
Lemma endAnimation_world id h :
  world (endAnimation id h) = world h ∨
  ∃ a, animations h !! id = Some a ∧
       world (endAnimation id h) = setCallabck a (lit 1) (world h).
Proof.
  unfold endAnimation. destruct (animations h !! id) as [a|] eqn:Ea; [| by left].
  destruct (flushed a), (tickMarker a); simpl; eauto.
Qed.

Lemma fire_world t h :
  world (fire t h) = world h ∨
  ∃ id a p, animations h !! id = Some a ∧
            world (fire t h) = setCallabck a p (world h).
Proof.
  destruct t as [k | k now]; simpl.
  - destruct (timeouts h !! k) as [id|]; [| by left].
    destruct (endAnimation_world id (with_timeouts (delete k) h)) as [E | (a & Ea & E)];
      [by left | right; eauto].
  - destruct (frames h !! k) as [id|]; [| by left].
    unfold tick. simpl. destruct (animations h !! id) as [a|] eqn:Ea; [| by left].
    destruct (now >=? end_ a)%js.
    + destruct (endAnimation_world id (with_frames (delete k) h)) as [E | (a' & Ea' & E)];
        [by left | right; eauto].
    + destruct (flushed a); [by left |]. right. simpl. eauto.
Qed.

(** They leave the callback of every animation as it is. *)
Lemma endAnimation_callbacks id h id' a' :
  animations (endAnimation id h) !! id' = Some a' →
  ∃ a, animations h !! id' = Some a ∧ setCallabck a' = setCallabck a.
Proof.
  unfold endAnimation. destruct (animations h !! id) as [a|] eqn:Ea; [| eauto].
  destruct (flushed a), (tickMarker a); simpl; eauto;
    (rewrite list_lookup_alter; case_decide as Hid;
     [subst id'; rewrite Ea; intros [= <-]; eauto | eauto]).
Qed.

Lemma fire_callbacks t h id' a' :
  animations (fire t h) !! id' = Some a' →
  ∃ a, animations h !! id' = Some a ∧ setCallabck a' = setCallabck a.
Proof.
  destruct t as [k | k now]; simpl.
  - destruct (timeouts h !! k) as [id|]; [| eauto].
    apply (endAnimation_callbacks id (with_timeouts (delete k) h)).
  - destruct (frames h !! k) as [id|]; [| eauto].
    unfold tick. simpl. destruct (animations h !! id) as [a|] eqn:Ea; [| eauto].
    destruct (now >=? end_ a)%js;
      [apply (endAnimation_callbacks id (with_frames (delete k) h)) |].
    destruct (flushed a); [eauto |]. simpl.
    rewrite list_lookup_alter. case_decide as Hid; [| eauto].
    subst id'. rewrite Ea. intros [= <-]. eauto.
Qed.

End CallbackFacts.

(** ** Runs of a slider *)

Section CarouselFacts.
Context {N : Number}.
Import Slider.

Lemma scan_layout (p p' : Page) (x : num) (l : list nat) :
  element p' = element p → scan p' x l = scan p x l.
Proof. intros E. induction l as [|y l IH]; simpl; [done |]. by rewrite E, IH. Qed.

Lemma governed_page (s s' : State) :
  Loop.animations s' = Loop.animations s →
  Controller.controller (Loop.world s') = Controller.controller (Loop.world s) →
  Controller.governed s → Controller.governed s'.
Proof.
  intros Ea Ec [H1 H2 H3].
  split; unfold Controller.own_arrows, Controller.tracks in *; rewrite ?Ea, ?Ec; done.
Qed.

Lemma kept_initial (x : num) (els : nat → Dom.HTMLElement) (st : num → num) :
  kept els (initial x els st).
Proof.
  split; [apply governed_initial |]. split; [| done].
  intros id a Ha. by destruct id.
Qed.

Lemma arrow_element id from to p (e : Controller.Env Page) :
  element (Controller.page (Controller.arrow id assign_scrollLeft from to p e)) =
  element (Controller.page e).
Proof. by rewrite arrow_page. Qed.

Lemma kept_endAnimation els id (s : State) :
  kept els s → kept els (Loop.endAnimation id s).
Proof.
  intros (Hg & Hs & He). split; [by apply governed_endAnimation |]. split.
  - intros id' a' Ha'.
    destruct (endAnimation_callbacks id s id' a' Ha') as (a & Ha & ->). by apply Hs.
  - unfold slider.
    destruct (endAnimation_world id s) as [-> | (a & Ha & ->)]; [done |].
    destruct (Hs id a Ha) as (from & to & ->). by rewrite arrow_element.
Qed.

Lemma kept_fire els t (s : State) : kept els s → kept els (Loop.fire t s).
Proof.
  intros (Hg & Hs & He). split; [by apply governed_fire |]. split.
  - intros id' a' Ha'.
    destruct (fire_callbacks t s id' a' Ha') as (a & Ha & ->). by apply Hs.
  - unfold slider.
    destruct (fire_world t s) as [-> | (id & a & p & Ha & ->)]; [done |].
    destruct (Hs id a Ha) as (from & to & ->). by rewrite arrow_element.
Qed.

Lemma kept_scrollTo els to now (s : State) : kept els s → kept els (scrollTo to now s).
Proof.
  intros Hk. unfold scrollTo, Controller.animate.
  assert (Hk1 : kept els (Controller.settle s)).
  { unfold Controller.settle.
    destruct (Controller.cancel _); [by apply kept_endAnimation | done]. }
  destruct Hk1 as (Hg & Hs & He).
  split; [by apply governed_start |]. split; [| done].
  unfold Controller.start, Loop.animate, scrolls. simpl.
  intros id a [[_ Hl] | [-> <-]]%lookup_snoc_Some; [by apply Hs |].
  simpl. eauto.
Qed.

Lemma kept_step els sl (s : State) (e : event) : kept els s → kept els (step sl s e).
Proof.
  intros Hk. destruct e as [now | now | x | t]; simpl.
  - unfold onNextClick. destruct (nextElement sl s) as [[adj|] | err]; simpl;
      [by apply kept_scrollTo | done | done].
  - unfold onPreviusClick. destruct (previousElement sl s) as [[adj|] | err]; simpl;
      [by apply kept_scrollTo | done | done].
  - destruct Hk as (Hg & Hs & He). split; [by apply (governed_page s) |]. done.
  - by apply kept_fire.
Qed.

Lemma kept_run els sl (s : State) (es : list event) : kept els s → kept els (run sl s es).
Proof.
  revert s. induction es as [|e es IH]; intros s Hk; [done |].
  apply IH, kept_step, Hk.
Qed.

(** A timer leaves the controller's fields as they are, or clears both. *)
Lemma fire_controller t (s : State) :
  Controller.governed s →
  Controller.controller (Loop.world (Loop.fire t s)) =
    Controller.controller (Loop.world s) ∨
  Controller.animatingTo (Controller.controller (Loop.world (Loop.fire t s))) = None.
Proof.
  intros Hg. destruct (fire_world t s) as [-> | (id & a & p & Ha & ->)]; [by left |].
  destruct (Controller.arrows_own s Hg id a Ha) as (f & from & to & ->).
  rewrite arrow_controller. destruct (p ==? lit 1)%js; [by right | by left].
Qed.

(** X6.  However a slider has been used, its elements are as they were at
    the start, and every pending callback assigns the container's
    [scrollLeft].  While the controller goes on animating, a timer does not
    change the current slide, although it moves [scrollLeft]: the current
    slide follows the target of the animation. *)
Theorem timers_keep_current_slide (sl : Slider) (x : num)
    (els : nat → Dom.HTMLElement) (st : num → num) (es : list event) (t : Loop.task) :
  let s := run sl (initial x els st) es in
  let s' := step sl s (Host t) in
  element (slider s) = els ∧ scrolls s ∧
  (Controller.isAnimating (scrollAnimeController s') = true →
     currentElement sl s' = currentElement sl s).
Proof.
  intros s s'.
  assert (Hk : kept els s) by apply kept_run, kept_initial.
  assert (Hk' : kept els s') by (by apply kept_step).
  destruct Hk as (Hg & Hs & He), Hk' as (_ & _ & He').
  split; [done |]. split; [done |].
  unfold Controller.isAnimating, scrollAnimeController, currentElement, currentScroll.
  intros Ha. subst s'. simpl in *.
  destruct (fire_controller t s Hg) as [Ec | En]; [| by rewrite En in Ha].
  unfold scrollAnimeController. rewrite Ec.
  destruct (Controller.animatingTo (Controller.controller (Loop.world s))) as [target|] eqn:Et;
    [| by rewrite Ec, Et in Ha].
  apply scan_layout. unfold slider in *. congruence.
Qed.

(** X7.  A click handler throws only the error "Bad state", and it throws
    exactly when no slide is at or after the effective scroll position; a
    slider without slides throws on every click. *)
Theorem click_throws_bad_state (sl : Slider) (now : num) (s : State) :
  ((∃ e, onNextClick sl now s = Throw e) ↔
     ∀ y, y ∈ slides sl → at_or_after s y = false) ∧
  ((∃ e, onPreviusClick sl now s = Throw e) ↔
     ∀ y, y ∈ slides sl → at_or_after s y = false) ∧
  (∀ e, onNextClick sl now s = Throw e ∨ onPreviusClick sl now s = Throw e →
     e = Error "Bad state") ∧
  (slides sl = [] →
     onNextClick sl now s = Throw (Error "Bad state") ∧
     onPreviusClick sl now s = Throw (Error "Bad state")).
Proof.
  pose proof (scan_spec (slider s) (currentScroll s) (slides sl)) as Hscan.
  unfold onNextClick, onPreviusClick, nextElement, previousElement, currentElement,
    at_or_after, offset_left.
  destruct (scan (slider s) (currentScroll s) (slides sl)) as [cur | err] eqn:E; simpl.
  - destruct Hscan as (before & after & Hl & Hcur & _).
    assert (Hin : cur ∈ slides sl)
      by (rewrite Hl; apply elem_of_app; right; by left).
    assert (Hno : (∀ y, y ∈ slides sl →
              (Dom.left (Dom.getOffset (element (slider s) y)) >=? currentScroll s)%js
              = false) → False)
      by (intros H; specialize (H cur Hin); congruence).
    repeat split.
    + intros [e He]. by destruct (at_index _ _).
    + intros H. by destruct (Hno H).
    + intros [e He]. by destruct (at_index _ _).
    + intros H. by destruct (Hno H).
    + intros e [He | He]; by destruct (at_index _ _).
    + rewrite H in Hin. by apply elem_of_nil in Hin.
    + rewrite H in Hin. by apply elem_of_nil in Hin.
  - destruct Hscan as [-> Hnone]. repeat split; eauto.
    intros e [He | He]; congruence.
Qed.

End CarouselFacts.

(** ** Clicks on a slider in motion *)

Section MotionFacts.
Context {N : Number}.
Import Slider.

Lemma consistent_slider_step sl (s : State) (e : event) :
  Loop.consistent s → Loop.consistent (step sl s e).
Proof.
  intros Hc. destruct e as [now | now | x | t]; simpl.
  - unfold onNextClick. destruct (nextElement sl s) as [[adj|] | err]; simpl; [| done | done].
    apply consistent_start, consistent_settle, Hc.
  - unfold onPreviusClick. destruct (previousElement sl s) as [[adj|] | err]; simpl;
      [| done | done].
    apply consistent_start, consistent_settle, Hc.
  - by apply consistent_with_world.
  - by apply consistent_fire.
Qed.

Lemma consistent_slider_run sl (s : State) (es : list event) :
  Loop.consistent s → Loop.consistent (run sl s es).
Proof.
  revert s. induction es as [|e es IH]; intros s Hc; [done |].
  apply IH, consistent_slider_step, Hc.
Qed.

(** What [scrollTo] leaves: the elements, and the controller tracking the
    new animation with its target. *)
Lemma scrollTo_tracks els to now (s : State) :
  kept els s →
  element (slider (scrollTo to now s)) = els ∧
  Controller.tracks (length (Loop.animations s)) assign_scrollLeft
    (scrollLeft (slider s)) to (scrollTo to now s) ∧
  currentScroll (scrollTo to now s) = to.
Proof.
  intros Hk. destruct (kept_scrollTo els to now s Hk) as (_ & _ & He).
  split; [done |].
  pose proof (animate_started assign_scrollLeft (scrollLeft (slider s)) to
                transitionDuration now s) as [Ht _].
  rewrite animate_id in Ht. fold (scrollTo to now s) in Ht.
  split; [done |].
  destruct Ht as (_ & Hto & _). unfold currentScroll, scrollAnimeController.
  by rewrite Hto.
Qed.

(** Ending the tracked animation hands the setter the interpolation at
    fraction [1], once. *)
Lemma scrollTo_jumps to now (s : State) id from target :
  Controller.tracks id assign_scrollLeft from target s →
  Controller.sets (Loop.world (scrollTo to now s)) =
    (id, Controller.interpolate from target (lit 1)) :: Controller.sets (Loop.world s) ∧
  Loop.is_flushed id (scrollTo to now s) = true.
Proof.
  intros (Hc & _ & a & Ea & Hcb & Fa).
  unfold scrollTo, Controller.animate.
  rewrite (proj2 (start_page _ _ _ _ _ _)).
  unfold Controller.settle. rewrite Hc.
  rewrite (world_endAnimation id s a Ea Fa), Hcb, arrow_sets. split; [done |].
  pose proof (is_flushed_endAnimation id s a Ea) as Hf.
  unfold Loop.is_flushed in *.
  destruct (Loop.animations (Loop.endAnimation id s) !! id) as [a'|] eqn:Ea'; [| done].
  by rewrite (start_lookup _ _ _ _ _ _ _ _ Ea').
Qed.

(** X8.  A click on "next" while the slider is still moving steps on from
    the slide it is moving to, not from the slide on screen.  After a click
    that scrolls towards the next slide, that slide is the current one at
    once (given that it is the first slide at or after its own offset): a
    click on "previous" scrolls back towards the slide the first click
    started from, and a second click on "next" scrolls towards the slide
    after the next, or does nothing when there is none.  The second
    animation starts from the [scrollLeft] read at the second click, and
    ending the first animation makes one more assignment to [scrollLeft],
    of the first animation's value at fraction [1], before the second
    begins. *)
Theorem click_in_motion (sl : Slider) (x : num) (els : nat → Dom.HTMLElement)
    (st : num → num) (es : list event) (now now' : num) (cur adj i : nat) :
  NoDup (slides sl) →
  currentElement sl (run sl (initial x els st) es) = Normal cur →
  slides sl !! i = Some cur → slides sl !! S i = Some adj →
  first_at_own_offset sl (run sl (initial x els st) es) adj →
  let s := run sl (initial x els st) es in
  let s1 := step sl s (Next now) in
  currentElement sl s1 = Normal adj ∧
  onPreviusClick sl now' s1 = Normal (scrollTo (offset_left s cur) now' s1) ∧
  onNextClick sl now' s1 =
    Normal (match slides sl !! S (S i) with
            | Some after => scrollTo (offset_left s after) now' s1
            | None => s1
            end) ∧
  ∀ to, let s2 := scrollTo to now' s1 in
    Controller.started assign_scrollLeft (scrollLeft (slider s1)) to (lit 1000) now'
      (length (Loop.animations s1)) s2 ∧
    Loop.is_flushed (length (Loop.animations s)) s2 = true ∧
    Controller.sets (Loop.world s2) =
      (length (Loop.animations s),
       Controller.interpolate (scrollLeft (slider s)) (offset_left s adj) (lit 1))
      :: Controller.sets (Loop.world s1).
Proof.
  intros Hnd Hcur Hi Hadj Hfirst s s1.
  assert (Hk : kept els s) by apply kept_run, kept_initial.
  destruct (nextElement_at sl s cur i Hnd Hcur Hi) as [Hnext _].
  assert (Es1 : s1 = scrollTo (offset_left s adj) now s).
  { unfold s1. simpl. unfold onNextClick. fold s. by rewrite Hnext, Hadj. }
  destruct (scrollTo_tracks els (offset_left s adj) now s Hk) as (He1 & Ht1 & Hs1).
  rewrite <- Es1 in He1, Ht1, Hs1.
  assert (He : element (slider s1) = element (slider s))
    by (destruct Hk as (_ & _ & ->); done).
  assert (Hcur1 : currentElement sl s1 = Normal adj).
  { unfold currentElement. rewrite Hs1.
    rewrite (scan_layout (slider s) (slider s1)) by done. exact Hfirst. }
  destruct (nextElement_at sl s1 adj (S i) Hnd Hcur1 Hadj) as [Hnext1 Hprev1].
  split; [done |]. split; [| split].
  - unfold onPreviusClick. rewrite Hprev1, Hi. simpl. unfold offset_left. by rewrite He.
  - unfold onNextClick. rewrite Hnext1. simpl.
    destruct (slides sl !! S (S i)) as [after|]; [| done].
    unfold offset_left. by rewrite He.
  - intros to s2.
    split.
    + unfold s2, scrollTo.
      rewrite <- (animate_id assign_scrollLeft (scrollLeft (slider s1)) to
                    transitionDuration now' s1).
      apply animate_started.
    + destruct (scrollTo_jumps to now' s1 _ _ _ Ht1) as [Hj Hf]. done.
Qed.

(** X9.  A click that scrolls, followed by the fallback timeout of its
    animation with nothing in between, leaves the slider at rest: the
    controller is idle, the animation has finished, and the last value
    assigned to [scrollLeft] is [from + (to - from) * 1], for the
    [scrollLeft] [from] read at the click and the offset [to] of the slide
    it was sent to. *)
Theorem click_then_timeout (sl : Slider) (x : num) (els : nat → Dom.HTMLElement)
    (st : num → num) (es : list event) (now : num) (cur adj i : nat) :
  NoDup (slides sl) →
  currentElement sl (run sl (initial x els st) es) = Normal cur →
  slides sl !! i = Some cur → slides sl !! S i = Some adj →
  let s := run sl (initial x els st) es in
  let id := length (Loop.animations s) in
  let s2 := run sl s [Next now; Host (Loop.Timeout id)] in
  Controller.isAnimating (scrollAnimeController s2) = false ∧
  Controller.cancel (scrollAnimeController s2) = None ∧
  Loop.is_flushed id s2 = true ∧
  head (Controller.sets (Loop.world s2)) =
    Some (id, Controller.interpolate (scrollLeft (slider s)) (offset_left s adj) (lit 1)) ∧
  currentScroll s2 = scrollLeft (slider s2).
Proof.
  intros Hnd Hcur Hi Hadj s id s2.
  assert (Hk : kept els s) by apply kept_run, kept_initial.
  assert (Hc : Loop.consistent s) by apply consistent_slider_run, consistent_empty.
  destruct (nextElement_at sl s cur i Hnd Hcur Hi) as [Hnext _].
  set (s1 := scrollTo (offset_left s adj) now s).
  assert (Es2 : s2 = Loop.fire (Loop.Timeout id) s1).
  { unfold s2. simpl. unfold onNextClick. fold s. by rewrite Hnext, Hadj. }
  assert (Hc1 : Loop.consistent s1) by apply consistent_start, consistent_settle, Hc.
  destruct (scrollTo_tracks els (offset_left s adj) now s Hk)
    as (_ & (Hcan & Hto & a & Ea & Hcb & Fa) & _).
  fold s1 id in Hcan, Hto, Ea.
  pose proof (Loop.fallback_pending s1 Hc1 id a Ea Fa) as Hpend.
  assert (Hw : Loop.world s2 =
               Controller.arrow id assign_scrollLeft (scrollLeft (slider s))
                 (offset_left s adj) (lit 1) (Loop.world s1)).
  { rewrite Es2. unfold Loop.fire. rewrite Hpend.
    rewrite (world_endAnimation id _ a); [by rewrite Hcb | done | done]. }
  assert (Hidle : Controller.cancel (Controller.controller (Loop.world s2)) = None ∧
                  Controller.animatingTo (Controller.controller (Loop.world s2)) = None)
    by (rewrite Hw; apply arrow_final_controller).
  destruct Hidle as [Hcn Han].
  unfold Controller.isAnimating, scrollAnimeController, currentScroll, scrollAnimeController.
  rewrite Han, Hcn. split; [done |]. split; [done |]. split; [| split; [| done]].
  - rewrite Es2. unfold Loop.fire. rewrite Hpend.
    apply (is_flushed_endAnimation id _ a). done.
  - by rewrite Hw, arrow_sets.
Qed.

End MotionFacts.

Section MotionDoubles.
#[local] Existing Instance binary64.
Import Controller Doubles.

(** On three slides scrolled to the first, "next" makes the second slide
    the current one while the container is still at [0]. *)
Lemma click_in_motion_witness :
  Slider.currentElement three
    (Slider.step three (scrolled 0%float) (Slider.Next 0%float)) = Normal 1.
Proof.
  assert (Hnd : NoDup (Slider.slides three))
    by (apply (bool_decide_unpack _); reflexivity).
  apply (proj1 (click_in_motion (N := binary64) three 0%float slide_at clamped [] 0%float
                  100%float 0 1 0 Hnd eq_refl eq_refl eq_refl eq_refl)).
Defined.

(** On three slides scrolled to the first, "next" and then the timeout
    end with [300] assigned to [scrollLeft]. *)
Lemma click_then_timeout_witness :
  head (sets (Loop.world
          (Slider.run three (scrolled 0%float)
             [Slider.Next 0%float; Slider.Host (Loop.Timeout 0)])))
  = Some (0, 300%float).
Proof.
  assert (Hnd : NoDup (Slider.slides three))
    by (apply (bool_decide_unpack _); reflexivity).
  destruct (click_then_timeout (N := binary64) three 0%float slide_at clamped [] 0%float 0 1 0
              Hnd eq_refl eq_refl eq_refl) as (_ & _ & _ & H & _).
  exact H.
Defined.

End MotionDoubles.

(** ** Animated values stay between the ends *)

Section RangeFacts.
#[local] Existing Instance exact.
Context {W : Type}.
Import Controller Range.
Implicit Types (h : Loop.Host (Env W)) (a : Loop.Animation (Env W)).
#[local] Arguments arrow : simpl never.

Lemma ease_unit (x : Q) :
  (0 <= x)%Q → (x <= 1)%Q → (0 <= easeInOutCubic x)%Q ∧ (easeInOutCubic x <= 1)%Q.
Proof.
  intros H0 H1. split.
  - pose proof (ease_monotone 0 x) as H.
    assert (E : (easeInOutCubic 0 == 0)%Q) by reflexivity.
    rewrite E in H. apply H; lra.
  - pose proof (ease_monotone x 1) as H.
    assert (E : (easeInOutCubic 1 == 1)%Q) by reflexivity.
    rewrite E in H. apply H; lra.
Qed.

Lemma between_interpolate (from to p : Q) :
  (0 <= p)%Q → (p <= 1)%Q → between from to (interpolate from to p).
Proof.
  intros H0 H1. unfold between, interpolate. simpl.
  destruct (Qlt_le_dec to from) as [Hlt | Hle]; [right | left]; split; nra.
Qed.

(** The fraction of the time elapsed, for a frame between the beginning
    and the end. *)
Lemma elapsed_unit (begin duration now : Q) :
  Qle_bool begin now = true → Qle_bool (begin + duration) now = false →
  (0 <= (now - begin) / duration)%Q ∧ ((now - begin) / duration <= 1)%Q.
Proof.
  intros Hb%Qle_bool_iff He.
  assert (Hlt : (now < begin + duration)%Q).
  { apply Qnot_le_lt. intros H%Qle_bool_iff. congruence. }
  assert (Hd : (0 < duration)%Q) by lra.
  split.
  - apply Qle_shift_div_l; [done | lra].
  - apply Qle_shift_div_r; [done | lra].
Qed.

Lemma fixed_alter (g : Loop.Animation (Env W) → Loop.Animation (Env W)) id
    (l : list (Loop.Animation (Env W))) :
  (∀ a, fixed (g a) = fixed a) → fixed <$> alter g id l = fixed <$> l.
Proof.
  intros Hg. revert id. induction l as [|a l IH]; intros [|id]; simpl; [done.. | |].
  - by rewrite Hg.
  - f_equal. apply IH.
Qed.

Lemma fixed_lookup (l l' : list (Loop.Animation (Env W))) id a :
  fixed <$> l' = fixed <$> l → l !! id = Some a →
  ∃ a', l' !! id = Some a' ∧ fixed a' = fixed a.
Proof.
  intros E Ha.
  assert (H : (fixed <$> l') !! id = Some (fixed a))
    by (by rewrite E, list_lookup_fmap, Ha).
  rewrite list_lookup_fmap in H.
  destruct (l' !! id) as [a'|]; [| done].
  exists a'. split; [done |]. by apply (inj Some) in H.
Qed.

Lemma made_fixed id a a' : fixed a' = fixed a → made id a → made id a'.
Proof.
  unfold fixed, made. intros [= E1 E2 E3 E4 E5] (H1 & H2 & f & from & to & H3).
  rewrite E1, E2, E3, E4, E5. eauto 10.
Qed.

Lemma within_fixed h h' id v :
  fixed <$> Loop.animations h' = fixed <$> Loop.animations h →
  within h id v → within h' id v.
Proof.
  intros E (a & f & from & to & Ha & Hcb & Hb).
  destruct (fixed_lookup _ _ id a E Ha) as (a' & Ha' & Hf).
  exists a', f, from, to. split; [done |]. split; [| done].
  unfold fixed in Hf. injection Hf as E1 _ _ _ _. by rewrite E1.
Qed.

(** The invariant reads the fixed part of the closures and the state of
    the program. *)
Lemma bounded_same h h' :
  fixed <$> Loop.animations h' = fixed <$> Loop.animations h →
  Loop.world h' = Loop.world h → bounded h → bounded h'.
Proof.
  intros E Ew [H1 H2 H3]. split.
  - by rewrite Ew.
  - intros id a' Ha'.
    destruct (fixed_lookup _ _ id a' (eq_sym E) Ha') as (a & Ha & Hf).
    apply (made_fixed id a); [done |]. by apply H2.
  - intros id v Hv. rewrite Ew in Hv. apply (within_fixed h); [done |]. by apply H3.
Qed.

(** A call of the callback of [id] with a fraction of [[0, 1]] keeps it. *)
Lemma bounded_called h h' id a p :
  fixed <$> Loop.animations h' = fixed <$> Loop.animations h →
  Loop.animations h !! id = Some a →
  Loop.world h' = Loop.setCallabck a p (Loop.world h) →
  (0 <= p)%Q → (p <= 1)%Q →
  bounded h → bounded h'.
Proof.
  intros E Ha Ew H0 H1 [B1 B2 B3].
  destruct (B2 id a Ha) as (_ & _ & f & from & to & Hcb).
  rewrite Hcb in Ew. split.
  - by rewrite Ew, arrow_easeFunction.
  - intros id' a' Ha'.
    destruct (fixed_lookup _ _ id' a' (eq_sym E) Ha') as (a0 & Ha0 & Hf).
    apply (made_fixed id' a0); [done |]. by apply B2.
  - intros id' v Hv. rewrite Ew, arrow_sets in Hv.
    apply (within_fixed h); [done |].
    apply elem_of_cons in Hv as [[= -> ->] | Hv]; [| by apply B3].
    exists a, f, from, to. split; [done |]. split; [done |].
    by apply between_interpolate.
Qed.

Lemma fixed_endAnimation id h :
  fixed <$> Loop.animations (Loop.endAnimation id h) = fixed <$> Loop.animations h.
Proof.
  rewrite animations_endAnimation.
  destruct (Loop.animations h !! id) as [a|]; [| done].
  destruct (Loop.flushed a); [done |]. by apply fixed_alter.
Qed.

Lemma bounded_endAnimation id h : bounded h → bounded (Loop.endAnimation id h).
Proof.
  intros Hb. destruct (Loop.animations h !! id) as [a|] eqn:Ea.
  - destruct (Loop.flushed a) eqn:Fa.
    + apply (bounded_same h); [apply fixed_endAnimation | | done].
      by apply (world_endAnimation_flushed id h a).
    + apply (bounded_called h _ id a (lit 1)); try done.
      * apply fixed_endAnimation.
      * by apply world_endAnimation.
  - by rewrite endAnimation_absent.
Qed.

Lemma bounded_tick id now h :
  (∀ a, Loop.animations h !! id = Some a → Qle_bool (Loop.begin a) now = true) →
  bounded h → bounded (Loop.tick id now h).
Proof.
  intros Hnow Hb. unfold Loop.tick.
  destruct (Loop.animations h !! id) as [a|] eqn:Ea; [| done].
  destruct (now >=? Loop.end_ a)%js eqn:Eend; [by apply bounded_endAnimation |].
  destruct (Loop.flushed a) eqn:Fa; [done |].
  destruct (closures_made h Hb id a Ea) as (Hease & Hend & _).
  rewrite Hease.
  assert (Hx : (0 <= (now - Loop.begin a) / Loop.duration a)%Q ∧
               ((now - Loop.begin a) / Loop.duration a <= 1)%Q).
  { apply elapsed_unit; [by apply Hnow |]. by rewrite <- Hend. }
  destruct (ease_unit _ (proj1 Hx) (proj2 Hx)) as [Hp0 Hp1].
  eapply (bounded_called h _ id a); [| done | reflexivity | exact Hp0 | exact Hp1 | done].
  simpl. by apply fixed_alter.
Qed.

Lemma bounded_fire t h :
  timely h (Fire t) = true → bounded h → bounded (Loop.fire t h).
Proof.
  intros Ht Hb. destruct t as [k | k now]; simpl in *.
  - destruct (Loop.timeouts h !! k) as [id|]; [| done].
    apply bounded_endAnimation. by apply (bounded_same h).
  - destruct (Loop.frames h !! k) as [id|]; [| done].
    apply bounded_tick; [| by apply (bounded_same h)].
    simpl. intros a Ea. by rewrite Ea in Ht.
Qed.

Lemma bounded_settle h : bounded h → bounded (settle h).
Proof.
  intros Hb. unfold settle.
  destruct (cancel (controller (Loop.world h))); [by apply bounded_endAnimation | done].
Qed.

Lemma bounded_start (f : Q → W → W) from to duration now h :
  bounded h → bounded (start f from to duration now h).2.
Proof.
  intros [B1 B2 B3]. unfold start, Loop.animate. simpl. split; simpl.
  - done.
  - intros id a [[_ Ha] | [-> <-]]%lookup_snoc_Some; [by apply B2 |].
    split; [done |]. split; [done |]. simpl. eauto.
  - intros id v Hv. destruct (B3 id v Hv) as (a & g & from' & to' & Ha & Hcb & Hbt).
    exists a, g, from', to'. split; [by apply lookup_app_l_Some | done].
Qed.

Lemma bounded_step h (ev : event W) :
  timely h ev = true → bounded h → bounded (step h ev).
Proof.
  intros Ht Hb. destruct ev as [f from to duration now | t | id]; simpl.
  - apply bounded_start, bounded_settle, Hb.
  - by apply bounded_fire.
  - by apply bounded_endAnimation.
Qed.

Lemma bounded_run h (es : list (event W)) :
  clocked h es → bounded h → bounded (run h es).
Proof.
  revert h. induction es as [|ev es IH]; intros h Hc Hb; [done |].
  destruct Hc as [Ht Hc]. apply IH; [done | by apply bounded_step].
Qed.

Lemma bounded_initial (w : W) : bounded (initial easeInOutCubic w).
Proof.
  split; [done | |].
  - intros id a Ha. by destruct id.
  - intros id v Hv. by apply elem_of_nil in Hv.
Qed.

(** X10.  In exact arithmetic, when the clock does not run backwards, an
    animation of the controller with the cubic easing never overshoots:
    every value any [setFunction] is given, by a frame, by the timeout or
    by a cancellation, lies between the [from] and the [to] of the
    animation that passes it. *)
Theorem values_stay_between (w : W) (es : list (event W)) (id : nat) (v : Q) :
  clocked (initial easeInOutCubic w) es →
  (id, v) ∈ sets (Loop.world (run (initial easeInOutCubic w) es)) →
  ∃ a setFunction from to,
    Loop.animations (run (initial easeInOutCubic w) es) !! id = Some a ∧
    Loop.setCallabck a = arrow id setFunction from to ∧
    between from to v.
Proof.
  intros Hc Hv.
  apply (values_within _ (bounded_run _ es Hc (bounded_initial w)) id v Hv).
Qed.

End RangeFacts.

Section RangeExample.
#[local] Existing Instance exact.
Import Controller Range.

(** Half way through an animation from [0] to [300], the value passed,
    [150], is between the ends. *)
Lemma values_stay_between_witness :
  ∃ a setFunction from to,
    Loop.animations (run (initial easeInOutCubic tt) half_way) !! 0 = Some a ∧
    Loop.setCallabck a = arrow 0 setFunction from to ∧
    between from to (interpolate 0%Q 300%Q (easeInOutCubic ((500 - 0) / 1000)%Q)).
Proof.
  apply (values_stay_between tt half_way 0).
  - vm_compute. done.
  - vm_compute. constructor.
Defined.

End RangeExample.
